(** * astro-data-science: density-estimation notebooks

    A shallow embedding of the functions the density-estimation notebooks
    define, and of the EM fitting loop they drive.

    Numbers.  The notebooks compute with NumPy float64 values.  The functions
    that only add, multiply, divide and compare are embedded over the exact
    rationals [Q], so that they evaluate; the Gaussian density and the
    log-likelihood need [exp], [sqrt] and [ln] and are embedded over the real
    numbers [R].  Facts proved over [Q] or [R] are facts of exact
    arithmetic: rounding, underflow and integer wrap-around are not in
    them.  [KDE_Float64] repeats the histogram in binary64, to show what
    rounding does to its bound.

    Layout.  The definitions come first ([KDE], [Selection], [EM],
    [KDE_Counts], [Arrays], [CrossValidation], [NaiveBayes], [Survey],
    [KDE_Float64], [FittingLoop]), the facts after ([KDE_Facts],
    [KDE_Float64_Facts], [Selection_Facts], [EM_Facts], [Gaussian_Facts],
    [KDE_More_Facts], [CrossValidation_Facts], [NaiveBayes_Facts],
    [Survey_Facts], [Gauss_Shape_Facts]). *)

From Stdlib Require Import List Bool Arith ZArith QArith Qabs Reals Lia Psatz.
From Stdlib Require Import Permutation.
From Stdlib Require String.
From Stdlib Require PrimFloat Uint63.
Import ListNotations.

(** ** NumPy arrays as lists *)

(** Element-wise operation on two arrays of one length. *)
Fixpoint zip_with {A B C : Type} (f : A -> B -> C) (l : list A) (m : list B)
  : list C :=
  match l, m with
  | a :: l', b :: m' => f a b :: zip_with f l' m'
  | _, _ => []
  end.

(** ** 1-Kernel-density-estimation.ipynb, in exact arithmetic *)

Module KDE.
Local Open Scope Q_scope.

(** [a < b], as a boolean. *)
Definition Qltb (a b : Q) : bool := negb (Qle_bool b a).

(** [np.sum(mask)] for a boolean row: the number of [True] entries. *)
Fixpoint count_true (mask : list bool) : nat :=
  match mask with
  | [] => O
  | b :: rest => ((if b then 1 else 0) + count_true rest)%nat
  end.

(** An integer count as a number. *)
Definition of_nat (n : nat) : Q := inject_Z (Z.of_nat n).

(** [y = (data[None] - x[:, None]) / (bin_width/2.)]: one row per query
    point, one column per data point. *)
Definition scaled_offsets (x : list Q) (bin_width : Q) (data : list Q)
  : list (list Q) :=
  map (fun xi => map (fun dj => (dj - xi) / (bin_width / 2)) data) x.

(** [np.sum(np.abs(y) < 1., axis=1) / (len(data) * bin_width)] *)
Definition point_centered_histogram (x : list Q) (bin_width : Q)
  (data : list Q) : list Q :=
  let y := scaled_offsets x bin_width data in
  map (fun row =>
         of_nat (count_true (map (fun v => Qltb (Qabs v) 1) row))
         / (of_nat (length data) * bin_width)) y.

End KDE.

(** ** 2-Gaussian-Mixture-Models.ipynb: the selection and noise callbacks,
    in exact arithmetic *)

Module Selection.
Local Open Scope Q_scope.

(** The constants of the fake redshift survey. *)
Definition z_cl : Q := 35 # 100.
Definition w_cl : Q := 5 # 1000.
Definition frac_bg : Q := 7 # 10.
Definition std : Q := 5 # 100.

(** NumPy's global generator: the stream of uniform draws it will produce
    and the number of draws consumed so far. *)
Record RandomState := { draws : nat -> Q; pos : nat }.

(** Code that may read and advance the generator. *)
Definition Rand (A : Type) : Type := RandomState -> A * RandomState.

Definition ret {A : Type} (a : A) : Rand A := fun s => (a, s).

Definition bind {A B : Type} (m : Rand A) (k : A -> Rand B) : Rand B :=
  fun s => let (a, s') := m s in k a s'.

Notation "x <- m ;; k" := (bind m (fun x => k))
  (at level 61, m at next level, right associativity).

(** [np.random.rand(n)]: the next [n] draws. *)
Definition rand (n : nat) : Rand (list Q) :=
  fun s => (map (fun i => draws s (pos s + i)%nat) (seq 0 n),
            {| draws := draws s; pos := (pos s + n)%nat |}).

(** A two-dimensional array of shape [(len rows, ncols)]. *)
Record ndarray2 := { ncols : nat; rows : list (list Q) }.

(** [len(coords)] *)
Definition len (a : ndarray2) : nat := length (rows a).

(** [coords[:,0]]; an [IndexError] ([None]) when the array has no column. *)
Definition column0 (a : ndarray2) : option (list Q) :=
  match ncols a with
  | O => None
  | S _ => Some (map (fun r => hd 0 r) (rows a))
  end.

(** [(coords[:,0] >= 0) & (coords[:,0] <= 1)] *)
Definition zrange (coords : ndarray2) : option (list bool) :=
  match column0 coords with
  | None => None
  | Some c => Some (zip_with andb (map (fun z => Qle_bool 0 z) c)
                                  (map (fun z => Qle_bool z 1) c))
  end.

(** [coords[:,0] - z_cl < np.random.rand(len(coords)) * (1-z_cl)]: the left
    operand is evaluated first, so nothing is drawn when it raises. *)
Definition ramp (coords : ndarray2) : Rand (option (list bool)) :=
  match column0 coords with
  | None => ret None
  | Some c =>
      u <- rand (len coords) ;;
      ret (Some (zip_with KDE.Qltb (map (fun z => z - z_cl) c)
                                   (map (fun r => r * (1 - z_cl)) u)))
  end.

(** [ramp(coords) & zrange(coords)] *)
Definition ramp_range (coords : ndarray2) : Rand (option (list bool)) :=
  a <- ramp coords ;;
  match a with
  | None => ret None
  | Some a =>
      match zrange coords with
      | None => ret None
      | Some b => ret (Some (zip_with andb a b))
      end
  end.

(** [np.eye(n)] *)
Definition eye (n : nat) : list (list Q) :=
  map (fun i => map (fun j => if Nat.eqb i j then 1 else 0) (seq 0 n))
      (seq 0 n).

(** [(std/2)**2 * np.eye(coords.shape[1])] *)
Definition zerror (coords : ndarray2) : list (list Q) :=
  map (map (fun e => (std / 2) ^ 2 * e)) (eye (ncols coords)).

(** The two callbacks as the fitting loop receives them: callables that may
    use the generator. *)
Definition sel_callback : ndarray2 -> Rand (option (list bool)) := ramp_range.
Definition covar_callback : ndarray2 -> Rand (list (list Q)) :=
  fun coords => ret (zerror coords).
Definition zrange_callback : ndarray2 -> Rand (option (list bool)) :=
  fun coords => ret (zrange coords).

End Selection.

(** ** 2-Gaussian-Mixture-Models.ipynb: the EM fitting loop

    The notebook fits its mixtures with [pygmmis.fit], a package whose source
    is not part of the repository.  The loop is embedded from the update
    equations the notebook states and from the design the specification
    gives for it, over the real numbers. *)

Module EM.
Local Open Scope R_scope.

Definition vec : Type := list R.
Definition mat : Type := list (list R).

(** Sum of the entries of a one-dimensional array. *)
Definition Rsum (l : list R) : R := fold_right Rplus 0 l.

Definition vzero (D : nat) : vec := repeat 0 D.
Definition vadd (u v : vec) : vec := zip_with Rplus u v.
Definition vsub (u v : vec) : vec := zip_with Rminus u v.
Definition vscale (a : R) (v : vec) : vec := map (Rmult a) v.
Definition vsum (D : nat) (l : list vec) : vec := fold_right vadd (vzero D) l.

Definition mzero (D : nat) : mat := repeat (vzero D) D.
Definition madd (a b : mat) : mat := zip_with vadd a b.
Definition mscale (a : R) (m : mat) : mat := map (vscale a) m.
Definition msum (D : nat) (l : list mat) : mat := fold_right madd (mzero D) l.

(** [u v^T] *)
Definition outer (u v : vec) : mat :=
  map (fun ui => map (fun vj => ui * vj) v) u.

(** [gauss(z,z0,s)] of the notebook:
    [np.exp(-(z-z0)**2/(2*s**2)) / np.sqrt(2*np.pi) / s] *)
Definition gauss (z z0 s : R) : R :=
  exp (- (z - z0) ^ 2 / (2 * s ^ 2)) / sqrt (2 * PI) / s.

(** Modelled from the spec: a component of the MixtureModel of section 3 (the
    class [pygmmis.GMM] is missing): a mixing amplitude, a mean vector and a
    covariance matrix. *)
Record Component : Type := { amp : R; mean : vec; covar : mat }.

(** Modelled from the spec: the BackgroundComponent of section 3 (the class
    [pygmmis.Background] is missing): a fixed density with an amplitude of
    its own; only the amplitude is fit. *)
Record Background : Type := { bg_amp : R; bg_density : vec -> R }.

(** Modelled from the spec: the state of a fit, the ordered sequence of the
    [K] components and the optional background term. *)
Record Mixture : Type :=
  { components : list Component; background : option Background }.

(** Modelled from the spec: the frozen sub-parameters of a fit, as the
    notebook passes them: [frozen={"mean": [0], "covar": [0]}]. *)
Record Frozen : Type := { frozen_mean : list nat; frozen_covar : list nat }.

Definition is_frozen (k : nat) (l : list nat) : bool := existsb (Nat.eqb k) l.

Definition nothing_frozen : Frozen :=
  {| frozen_mean := []; frozen_covar := [] |}.

(** Modelled from the spec: the uniform density over a bounding box, the
    example section 3 gives for the background; the notebook builds it as
    [pygmmis.Background((np.array([0]), np.array([1])), amp)]. *)
Fixpoint in_box (lo hi x : vec) : bool :=
  match lo, hi, x with
  | l :: lo', h :: hi', z :: x' =>
      (if Rle_dec l z then true else false)
      && (if Rle_dec z h then true else false) && in_box lo' hi' x'
  | _, _, _ => true
  end.

(** The volume of the box, the product of its side lengths. *)
Definition box_volume (lo hi : vec) : R :=
  fold_right Rmult 1 (zip_with Rminus hi lo).

(** One over the volume inside the box, zero outside. *)
Definition uniform_density (lo hi : vec) (x : vec) : R :=
  if in_box lo hi x then 1 / box_volume lo hi else 0.

Definition uniform_background (lo hi : vec) (a : R) : Background :=
  {| bg_amp := a; bg_density := uniform_density lo hi |}.

(** *** Mixtures in general

    A mixture density over any list of terms [cs], with amplitudes [a] and
    densities [P]; its responsibilities, and the amplitudes the M-step
    derives from them. *)

Definition mixture_density {X C : Type} (a : C -> R) (P : C -> X -> R)
  (cs : list C) (x : X) : R :=
  Rsum (map (fun c => a c * P c x) cs).

Definition mixture_resp {X C : Type} (a : C -> R) (P : C -> X -> R)
  (cs : list C) (x : X) (c : C) : R :=
  a c * P c x / mixture_density a P cs x.

Definition mean_resp {X C : Type} (a : C -> R) (P : C -> X -> R)
  (cs : list C) (xs : list X) (c : C) : R :=
  Rsum (map (fun x => mixture_resp a P cs x c) xs) / INR (length xs).

(** The weighted moments of one-dimensional samples: the sum of the
    weights, the weighted sum, and the weighted squared distance to [m]. *)
Definition weight_sum (xs : list vec) (w : vec -> R) : R := Rsum (map w xs).

Definition weighted_sum (xs : list vec) (w : vec -> R) : R :=
  Rsum (map (fun x => w x * hd 0 x) xs).

Definition scatter (xs : list vec) (w : vec -> R) (m : R) : R :=
  Rsum (map (fun x => w x * ((m - hd 0 x) * (m - hd 0 x))) xs).

Section Fit.

(** Modelled from the spec: the density [p_k(x)] of a Gaussian component
    with the given mean and covariance, a primitive of the missing package
    (section 9 leaves the linear algebra to the implementation). *)
Variable pdf : vec -> mat -> vec -> R.

(** Modelled from the spec: the regularization of a covariance, the
    numerical policy of sections 4.1 and 7 (a floor on its eigenvalues),
    likewise a primitive of the missing package: section 9 counts the
    eigen-decomposition it needs among the swappable details. *)
Variable regularize : mat -> mat.

(** Modelled from the spec: the numerator [alpha_k p_k(x)] of the E-step
    of section 4.1. *)
Definition weighted_density (x : vec) (c : Component) : R :=
  amp c * pdf (mean c) (covar c) x.

(** Modelled from the spec: the background density term of the E-step,
    the amplitude of the background times its density (section 4.4); zero
    without a background. *)
Definition background_term (theta : Mixture) (x : vec) : R :=
  match background theta with
  | Some b => bg_amp b * bg_density b x
  | None => 0
  end.

(** Modelled from the spec: the denominator of the E-step,
    [sum_j alpha_j p_j(x)] plus the background density term: the mixture
    density at [x].  The background enters once, so that a row of
    responsibilities and the responsibility of the background sum to 1, as
    section 3 asks of the ResponsibilityMatrix. *)
Definition denominator (theta : Mixture) (x : vec) : R :=
  Rsum (map (weighted_density x) (components theta)) + background_term theta x.

(** Modelled from the spec: the responsibility of component [c] for the
    sample [x], [q_ik <- alpha_k p_k(x_i) / sum_j alpha_j p_j(x_i)] in the
    notebook's equations, with the guard section 4.1 asks for: a sample
    whose denominator is zero is assigned to the background when there is
    one, and is shared equally among the components otherwise, so that its
    row stays stochastic as section 3 requires. *)
Definition responsibility (theta : Mixture) (x : vec) (c : Component) : R :=
  if Req_EM_T (denominator theta x) 0
  then match background theta with
       | Some _ => 0
       | None => / INR (length (components theta))
       end
  else weighted_density x c / denominator theta x.

(** Modelled from the spec: the responsibility of the background for the
    sample [x], its share of the denominator, and the whole sample under
    the guard. *)
Definition background_responsibility (theta : Mixture) (x : vec) : R :=
  if Req_EM_T (denominator theta x) 0
  then match background theta with Some _ => 1 | None => 0 end
  else background_term theta x / denominator theta x.

(** Modelled from the spec: the samples under the guard, flagged as
    unexplained (section 4.1). *)
Definition unexplained (theta : Mixture) (samples : list vec) : list vec :=
  filter (fun x => if Req_EM_T (denominator theta x) 0 then true else false)
         samples.

(** Modelled from the spec: the E-step of section 4.1, the [N x K]
    ResponsibilityMatrix, one row per sample. *)
Definition e_step (theta : Mixture) (samples : list vec) : list (list R) :=
  map (fun x => map (responsibility theta x) (components theta)) samples.

(** [q[:,k]] *)
Definition column (k : nat) (q : list (list R)) : list R :=
  map (fun row => nth k row 0) q.

(** Modelled from the spec: the M-step of section 4.1 and of the notebook's
    equations for component [k], with [q_k = sum_i q_ik]:
    [alpha_k <- q_k / N], [mu_k <- 1/q_k sum_i q_ik x_i],
    [Sigma_k <- 1/q_k sum_i q_ik (mu_k - x_i)(mu_k - x_i)^T], regularized;
    a frozen mean or covariance retains its previous value.  Neither the
    notebook nor the specification says what becomes of a component whose
    [q_k] is zero; the quotients are left as they stand. *)
Definition m_step_component (frozen : Frozen) (samples : list vec)
  (q : list (list R)) (k : nat) (c : Component) : Component :=
  let D := length (mean c) in
  let qk := column k q in
  let q_k := Rsum qk in
  let mu :=
    if is_frozen k (frozen_mean frozen) then mean c
    else vscale (/ q_k) (vsum D (zip_with vscale qk samples)) in
  let sigma :=
    if is_frozen k (frozen_covar frozen) then covar c
    else regularize
           (mscale (/ q_k)
              (msum D (zip_with
                         (fun w x => mscale w (outer (vsub mu x) (vsub mu x)))
                         qk samples))) in
  {| amp := q_k / INR (length samples); mean := mu; covar := sigma |}.

(** Modelled from the spec: section 4.4, the background keeps its shape and
    its amplitude becomes 1 minus the sum of the Gaussian amplitudes. *)
Definition m_step (frozen : Frozen) (samples : list vec) (q : list (list R))
  (theta : Mixture) : Mixture :=
  let comps :=
    map (fun kc => m_step_component frozen samples q (fst kc) (snd kc))
        (combine (seq 0 (length (components theta))) (components theta)) in
  {| components := comps;
     background :=
       match background theta with
       | Some b => Some {| bg_amp := 1 - Rsum (map amp comps);
                           bg_density := bg_density b |}
       | None => None
       end |}.

(** Modelled from the spec: one EM iteration, the E-step, then the
    M-step. *)
Definition em_step (frozen : Frozen) (samples : list vec) (theta : Mixture)
  : Mixture :=
  m_step frozen samples (e_step theta samples) theta.

(** Modelled from the spec: the state after [n] iterations. *)
Fixpoint em_iter (frozen : Frozen) (samples : list vec) (n : nat)
  (theta : Mixture) : Mixture :=
  match n with
  | O => theta
  | S m => em_step frozen samples (em_iter frozen samples m theta)
  end.

(** Modelled from the spec: the observed-data log-likelihood, the logarithm
    of the likelihood the notebook states,
    [prod_i sum_k alpha_k p(x_i | theta_k)]. *)
Definition log_likelihood (theta : Mixture) (samples : list vec) : R :=
  Rsum (map (fun x => ln (denominator theta x)) samples).

(** Modelled from the spec: the convergence rule of section 4.1, iterate
    until the change of the log-likelihood falls below the tolerance or the
    iteration cap is reached; the result carries the iteration count. *)
Fixpoint fit_loop (frozen : Frozen) (samples : list vec) (tol : R)
  (maxiter : nat) (theta : Mixture) (it : nat) : Mixture * nat :=
  match maxiter with
  | O => (theta, it)
  | S fuel =>
      let theta' := em_step frozen samples theta in
      if Rlt_dec (Rabs (log_likelihood theta' samples
                        - log_likelihood theta samples)) tol
      then (theta', S it)
      else fit_loop frozen samples tol fuel theta' (S it)
  end.

(** Modelled from the spec: the fit, from a caller-specified initial state
    ([init_method='none']). *)
Definition fit (frozen : Frozen) (samples : list vec) (tol : R)
  (maxiter : nat) (theta : Mixture) : Mixture * nat :=
  fit_loop frozen samples tol maxiter theta O.

(** The sum of all amplitudes, the background's included. *)
Definition total_amplitude (theta : Mixture) : R :=
  Rsum (map amp (components theta))
  + match background theta with Some b => bg_amp b | None => 0 end.

(** Every amplitude, the background's included, is nonnegative. *)
Definition amplitudes_nonneg (theta : Mixture) : Prop :=
  Forall (fun c => 0 <= amp c) (components theta) /\
  forall b, background theta = Some b -> 0 <= bg_amp b.

(** The background density is nonnegative at every sample. *)
Definition background_nonneg (theta : Mixture) (samples : list vec) : Prop :=
  forall b, background theta = Some b ->
    forall x, In x samples -> 0 <= bg_density b x.

(** Component [k] after one EM iteration, as a function of the old one. *)
Definition updated (frozen : Frozen) (samples : list vec) (theta : Mixture)
  (k : nat) (c : Component) : Component :=
  m_step_component frozen samples (e_step theta samples) k c.

(** The terms of the mixture density of a state: the Gaussian components
    with their index, and the background when there is one; their
    amplitudes, their densities, and their densities after one EM
    iteration. *)
Definition terms (theta : Mixture) : list (option (nat * Component)) :=
  map Some (combine (seq 0 (length (components theta))) (components theta))
  ++ match background theta with Some _ => [None] | None => [] end.

Definition term_amp (theta : Mixture) (t : option (nat * Component)) : R :=
  match t with
  | Some kc => amp (snd kc)
  | None => match background theta with Some b => bg_amp b | None => 0 end
  end.

Definition term_density (theta : Mixture) (t : option (nat * Component))
  (x : vec) : R :=
  match t with
  | Some kc => pdf (mean (snd kc)) (covar (snd kc)) x
  | None =>
      match background theta with Some b => bg_density b x | None => 0 end
  end.

Definition term_density_updated (frozen : Frozen) (samples : list vec)
  (theta : Mixture) (t : option (nat * Component)) (x : vec) : R :=
  match t with
  | Some kc =>
      let c' := updated frozen samples theta (fst kc) (snd kc) in
      pdf (mean c') (covar c') x
  | None =>
      match background theta with Some b => bg_density b x | None => 0 end
  end.

End Fit.

(** Modelled from the spec: the density of a one-dimensional Gaussian
    component ([D=1], as in every fit of the notebook), through the
    notebook's [gauss]: the standard deviation is the root of the single
    covariance entry. *)
Definition gauss_pdf (mu : vec) (sigma : mat) (x : vec) : R :=
  gauss (hd 0 x) (hd 0 mu) (sqrt (hd 0 (hd [] sigma))).

(** Modelled from the spec: the regularization of a one-dimensional
    covariance, whose single eigenvalue is the variance itself: a floor on
    it. *)
Definition floor_variance (floor : R) (sigma : mat) : mat :=
  [[Rmax (hd 0 (hd [] sigma)) floor]].

(** The covariances a floored variance can take: one entry, at or above
    the floor. *)
Definition floored (floor : R) (sigma : mat) : Prop :=
  exists v, sigma = [[v]] /\ floor <= v.

(** The covariances of a one-dimensional Gaussian: one positive entry. *)
Definition positive_variance (sigma : mat) : Prop :=
  exists v, sigma = [[v]] /\ 0 < v.

(** *** States a fit can start from *)

Section States.
Variable pdf : vec -> mat -> vec -> R.
Variable D : nat.
Variables valid admissible : mat -> Prop.
Variables (frozen : Frozen) (samples : list vec).

(** Samples of [D] coordinates each. *)
Definition shaped_samples : Prop := Forall (fun x => length x = D) samples.

(** A state on which the likelihood of the samples is defined:
    nonnegative amplitudes and background, means of [D] coordinates, every
    frozen covariance valid, and a positive mixture density at every
    sample. *)
Definition proper (theta : Mixture) : Prop :=
  amplitudes_nonneg theta /\
  background_nonneg theta samples /\
  (forall c, In c (components theta) -> length (mean c) = D) /\
  (forall k c, nth_error (components theta) k = Some c ->
     is_frozen k (frozen_covar frozen) = true -> valid (covar c)) /\
  (forall x, In x samples -> 0 < denominator pdf theta x).

(** Every covariance that is not frozen is one the regularization leaves
    in place. *)
Definition regular (theta : Mixture) : Prop :=
  forall k c, nth_error (components theta) k = Some c ->
    is_frozen k (frozen_covar frozen) = false -> admissible (covar c).

End States.

(** The weighted mean and the weighted covariance about [mu] that the
    M-step computes from the weights [w]. *)
Definition weighted_mean (D : nat) (w : vec -> R) (samples : list vec)
  : vec :=
  vscale (/ Rsum (map w samples))
    (vsum D (zip_with vscale (map w samples) samples)).

Definition weighted_covariance (D : nat) (w : vec -> R) (samples : list vec)
  (mu : vec) : mat :=
  mscale (/ Rsum (map w samples))
    (msum D (zip_with (fun wi x => mscale wi (outer (vsub mu x) (vsub mu x)))
                      (map w samples) samples)).

(** The [d]-th coordinate of a vector and the entry [(a, b)] of a matrix. *)
Definition coord (d : nat) (v : vec) : R := nth d v 0.
Definition entry (a b : nat) (m : mat) : R := nth b (nth a m []) 0.

(** A matrix of [D] rows of [D] entries. *)
Definition square (D : nat) (m : mat) : Prop :=
  length m = D /\ Forall (fun row => length row = D) m.

(** Samples of one coordinate, [sample.reshape(-1,1)]. *)
Definition scalar_samples (samples : list vec) : Prop :=
  Forall (fun x => length x = 1%nat) samples.

(** *** The fits of the notebook *)

(** The last fit of the notebook starts from a Gaussian amplitude of 1
    together with a background amplitude of 0.7. *)
Definition last_fit_init : Mixture :=
  {| components := [ {| amp := 1; mean := [35 / 100]; covar := [[1 / 10]] |} ];
     background := Some (uniform_background [0] [1] (7 / 10)) |}.

(** A fit with one component and the background at amplitude 0.5. *)
Definition background_fit_init : Mixture :=
  {| components := [ {| amp := 1 / 2; mean := [35 / 100];
                        covar := [[1 / 10]] |} ];
     background := Some (uniform_background [0] [1] (1 / 2)) |}.

(** A fit of one component whose mean is frozen. *)
Definition frozen_mean_init : Mixture :=
  {| components := [ {| amp := 1; mean := [0]; covar := [[1]] |} ];
     background := None |}.

Definition frozen_mean_only : Frozen :=
  {| frozen_mean := [O]; frozen_covar := [] |}.

(** A fit of one component that starts at the mean and the variance of
    the samples 0 and 2. *)
Definition sample_moments_init : Mixture :=
  {| components := [ {| amp := 1; mean := [1]; covar := [[1]] |} ];
     background := None |}.

End EM.

(** ** 1-Kernel-density-estimation.ipynb: one row of the histogram *)

Module KDE_Counts.
Import KDE.
Local Open Scope Q_scope.
(** The number of data points strictly within half a bin width of [xi]. *)
Definition window_count (xi w : Q) (data : list Q) : nat :=
  count_true (map (fun dj => Qltb (Qabs ((dj - xi) / (w / 2))) 1) data).
End KDE_Counts.

(** ** Indexing NumPy arrays *)

Module Arrays.

(** [x[mask]] for a boolean mask: the entries at the [True] positions, in
    order; an [IndexError] ([None]) when the mask has another length. *)
Definition select {A : Type} (x : list A) (mask : list bool)
  : option (list A) :=
  if Nat.eqb (length x) (length mask)
  then Some (map fst (filter snd (combine x mask)))
  else None.

(** [x[ind]] for an array of indices: an [IndexError] ([None]) when an
    index is out of bounds. *)
Fixpoint take {A : Type} (x : list A) (ind : list nat) : option (list A) :=
  match ind with
  | [] => Some []
  | i :: rest =>
      match nth_error x i, take x rest with
      | Some v, Some vs => Some (v :: vs)
      | _, _ => None
      end
  end.

(** [np.arange(n)] *)
Definition arange (n : nat) : list nat := seq 0 n.

(** [np.isin(idx, values)] *)
Definition isin (idx values : list nat) : list bool :=
  map (fun i => existsb (Nat.eqb i) values) idx.

(** [np.logical_not(mask)] *)
Definition logical_not (mask : list bool) : list bool := map negb mask.

(** [np.sum(a)] *)
Definition qsum (a : list Q) : Q := fold_right Qplus 0%Q a.

End Arrays.

(** ** 1-Kernel-density-estimation.ipynb: the leave-K-out split *)

Module CrossValidation.
Import Arrays.

(** One round of the cross-validation loop, for the indices [rand_i] that
    [np.random.randint(0, x.size, size=32)] returned:
    [idx = np.arange(x.size)], [test_x = x[rand_i]],
    [train_x = x[np.logical_not(np.isin(idx, rand_i))]]. *)
Definition leave_out (x : list Q) (rand_i : list nat)
  : option (list Q * list Q) :=
  let idx := arange (length x) in
  match take x rand_i with
  | None => None
  | Some test_x =>
      match select x (logical_not (isin idx rand_i)) with
      | None => None
      | Some train_x => Some (test_x, train_x)
      end
  end.

End CrossValidation.

(** ** 1-Kernel-density-estimation.ipynb: classifying the unknown galaxies,
    in exact arithmetic *)

Module NaiveBayes.
Import Arrays.
Import String.
Local Open Scope string_scope.
Local Open Scope Q_scope.

(** A dict with string keys, in insertion order. *)
Definition dict : Type := list (string * Q).

(** [d[k] = v] *)
Fixpoint dict_set (d : dict) (k : string) (v : Q) : dict :=
  match d with
  | [] => [(k, v)]
  | (k', v') :: rest =>
      if String.eqb k' k then (k, v) :: rest
      else (k', v') :: dict_set rest k v
  end.

(** [d[k]]; a [KeyError] ([None]) when the key is missing. *)
Fixpoint dict_get (d : dict) (k : string) : option Q :=
  match d with
  | [] => None
  | (k', v) :: rest => if String.eqb k' k then Some v else dict_get rest k
  end.

(** [d.keys()] *)
Definition dict_keys (d : dict) : list string := map fst d.

(** [weights = dict()],
    [weights['cluster'] = n_cluster / (n_cluster + n_field)],
    [weights['field'] = n_field / (n_cluster + n_field)] *)
Definition weights (n_cluster n_field : nat) : dict :=
  let w := dict_set [] "cluster"
             (KDE.of_nat n_cluster / KDE.of_nat (n_cluster + n_field)) in
  dict_set w "field" (KDE.of_nat n_field / KDE.of_nat (n_cluster + n_field)).

Section Classify.

(** [np.exp(kdes[label].score_samples(d))] for one distance [d]: the
    density the fitted [KernelDensity] of the label gives it (scikit-learn,
    not part of the repository). *)
Variable density : string -> Q -> Q.

(** [np.exp(kdes[label].score_samples(unknown['dist'].reshape(-1, 1)))] *)
Definition likelihoods (label : string) (unknown : list Q) : list Q :=
  map (density label) unknown.

(** [norm = []], then for every label of [weights.keys()]
    [norm = np.sum(weights[label] * np.exp(ln_likelihoods))], then
    [norm = np.sum(norm)]: each round replaces the value of the one
    before. *)
Definition norm_loop (w : dict) (unknown : list Q) : option Q :=
  fold_left
    (fun norm label =>
       match norm, dict_get w label with
       | Some _, Some wl =>
           Some (qsum (map (Qmult wl) (likelihoods label unknown)))
       | _, _ => None
       end)
    (dict_keys w) (Some (qsum [])).

(** [weights[label] * np.exp(kdes[label].score_samples(...)) / norm] *)
Definition prob (w : dict) (label : string) (unknown : list Q) (norm : Q)
  : option (list Q) :=
  match dict_get w label with
  | Some wl => Some (map (fun l => wl * l / norm) (likelihoods label unknown))
  | None => None
  end.

(** [labels[mask] = v] on an array of strings of at most [width]
    characters: longer values are cut. *)
Definition assign (width : nat) (labels : list string) (mask : list bool)
  (v : string) : list string :=
  zip_with (fun l (m : bool) => if m then substring 0 width v else l)
           labels mask.

Definition placeholder : string := "kasdfkjfsaj".

(** [unknown_labels = np.full(len(unknown), 'kasdfkjfsaj')],
    [unknown_labels[ratio > 1] = 'cluster'],
    [unknown_labels[ratio <= 1] = 'field'] *)
Definition label_by_ratio (n : nat) (ratio : list Q) : list string :=
  let width := String.length placeholder in
  let l0 := repeat placeholder n in
  let l1 := assign width l0 (map (fun r => KDE.Qltb 1 r) ratio) "cluster" in
  assign width l1 (map (fun r => Qle_bool r 1) ratio) "field".

(** The three cells together: [norm], [prob_field], [prob_cluster],
    [ratio = prob_cluster / prob_field] and the labels. *)
Definition classify (n_cluster n_field : nat) (unknown : list Q)
  : option (list Q * list Q * list string) :=
  let w := weights n_cluster n_field in
  match norm_loop w unknown with
  | None => None
  | Some norm =>
      match prob w "field" unknown norm, prob w "cluster" unknown norm with
      | Some prob_field, Some prob_cluster =>
          let ratio := zip_with Qdiv prob_cluster prob_field in
          Some (prob_field, prob_cluster,
                label_by_ratio (List.length unknown) ratio)
      | _, _ => None
      end
  end.

End Classify.

(** A density for the examples: the cluster is the likelier label up to
    distance 1, the field beyond. *)
Definition example_density (label : string) (d : Q) : Q :=
  if Qle_bool d 1
  then (if String.eqb label "cluster" then 3 else 1)
  else (if String.eqb label "cluster" then 1 else 3).

End NaiveBayes.

(** ** 2-Gaussian-Mixture-Models.ipynb: the incomplete sample *)

Module Survey.
Import Arrays Selection.
Local Open Scope Q_scope.

(** [sel = ramp_range(noisy)], [data_s = noisy[sel]],
    [covar_s = covar[sel]] *)
Definition observe (noisy : ndarray2) (covar : list (list (list Q)))
  : Rand (option (ndarray2 * list (list (list Q)))) :=
  sel <- ramp_range noisy ;;
  ret (match sel with
       | None => None
       | Some sel =>
           match select (rows noisy) sel, select covar sel with
           | Some data_s, Some covar_s =>
               Some ({| ncols := ncols noisy; rows := data_s |}, covar_s)
           | _, _ => None
           end
       end).

End Survey.

(** ** 1-Kernel-density-estimation.ipynb: the histogram in binary64

    NumPy computes [point_centered_histogram] in IEEE binary64; the same
    function over the kernel's binary64 numbers, for what rounding does to
    it. *)

Module KDE_Float64.
Import PrimFloat.
Local Open Scope float_scope.

(** An integer count as a float, exact below [2^53]. *)
Definition of_nat (n : nat) : float :=
  of_uint63 (Uint63.of_Z (Z.of_nat n)).

(** [y = (data[None] - x[:, None]) / (bin_width/2.)],
    [np.sum(np.abs(y) < 1., axis=1) / (len(data) * bin_width)] *)
Definition point_centered_histogram (x : list float) (bin_width : float)
  (data : list float) : list float :=
  let y := map (fun xi => map (fun dj => (dj - xi) / (bin_width / 2)) data)
               x in
  map (fun row =>
         of_nat (KDE.count_true (map (fun v => ltb (abs v) 1) row))
         / (of_nat (length data) * bin_width)) y.

End KDE_Float64.

(** ** 2-Gaussian-Mixture-Models.ipynb: the callbacks inside the fit *)

Module FittingLoop.
Import Arrays Selection.

(** What code that runs during a fit can reach outside the model: NumPy's
    global generator, and the outside world it could write to (the
    terminal, files, the network), kept as the list of what has been
    written. *)
Record World : Type :=
  { generator : RandomState; written : list String.string }.

(** Code that may use the generator and write out. *)
Definition Eff (A : Type) : Type := World -> A * World.

Definition eret {A : Type} (a : A) : Eff A := fun w => (a, w).

Definition ebind {A B : Type} (m : Eff A) (k : A -> Eff B) : Eff B :=
  fun w => let (a, w') := m w in k a w'.

(** Code that only uses the generator. *)
Definition lift {A : Type} (m : Rand A) : Eff A :=
  fun w => let (a, s) := m (generator w) in
           (a, {| generator := s; written := written w |}).

(** Writing [msg] out, what [print] or a log handler does. *)
Definition write (msg : String.string) : Eff unit :=
  fun w => (tt, {| generator := generator w;
                   written := msg :: written w |}).

(** Code that writes nothing out. *)
Definition silent {A : Type} (m : Eff A) : Prop :=
  forall w, written (snd (m w)) = written w.

(** The callbacks as the notebook passes them to the fit:
    [sel_callback=ramp_range, covar_callback=zerror]. *)
Definition run_sel (coords : ndarray2) : Eff (option (list bool)) :=
  lift (sel_callback coords).

Definition run_noise (coords : ndarray2) : Eff (list (list Q)) :=
  lift (covar_callback coords).

Section Loop.

(** The sampler and the E-step/M-step pass of the loop are computations on
    values; section 9 of the spec leaves them to the implementation, so
    they are parameters here, the sampler with the generator it draws
    from. *)
Variable Model : Type.
Variable draw : Model -> Rand ndarray2.
Variable pass : Model -> list (list Q) -> list (list Q) -> Model.
Variable sel : ndarray2 -> Eff (option (list bool)).
Variable noise : ndarray2 -> Eff (list (list Q)).

(** Modelled from the spec: one iteration of the fitting loop around its
    callbacks ([pygmmis.fit] is missing), sections 4.3 and 5: it draws a
    synthetic sample set from the current model, evaluates the selection
    predicate and the noise estimate on it, and makes one E-step/M-step
    pass over the data and the samples that stand in for the missing
    ones; [None] when the selection callback fails or returns a mask of
    another length than the synthetic set. *)
Definition iteration (theta : Model) : Eff (option Model) :=
  ebind (lift (draw theta)) (fun synthetic =>
  ebind (sel synthetic) (fun accepted =>
  ebind (noise synthetic) (fun covar =>
  eret (match accepted with
        | None => None
        | Some mask =>
            match select (rows synthetic) (logical_not mask) with
            | None => None
            | Some missing => Some (pass theta missing covar)
            end
        end)))).

(** Modelled from the spec: [n] iterations of the loop, stopping at the
    first failure. *)
Fixpoint fit_with_callbacks (n : nat) (theta : Model) : Eff (option Model) :=
  match n with
  | O => eret (Some theta)
  | S m =>
      ebind (iteration theta) (fun r =>
        match r with
        | None => eret None
        | Some theta' => fit_with_callbacks m theta'
        end)
  end.

End Loop.

End FittingLoop.

Module KDE_Facts.
Import KDE.
Local Open Scope Q_scope.

Lemma Qltb_iff (a b : Q) : Qltb a b = true <-> a < b.
Proof.
  unfold Qltb. rewrite negb_true_iff.
  split; intro H.
  - apply Qnot_le_lt. intro Hle. apply Qle_bool_iff in Hle. congruence.
  - destruct (Qle_bool b a) eqn:E; [|reflexivity].
    apply Qle_bool_iff in E. exfalso. apply (Qlt_not_le _ _ H E).
Qed.

Lemma count_true_le (mask : list bool) : (count_true mask <= length mask)%nat.
Proof. induction mask as [|[] m IH]; simpl; lia. Qed.

Lemma count_true_all (mask : list bool) :
  count_true mask = length mask <-> Forall (fun b => b = true) mask.
Proof.
  induction mask as [|b m IH]; simpl.
  - split; auto.
  - pose proof (count_true_le m) as Hle.
    destruct b; simpl; split; intro H.
    + constructor; [reflexivity|]. apply IH. lia.
    + inversion H; subst. apply IH in H3. lia.
    + lia.
    + inversion H; discriminate.
Qed.

Lemma of_nat_nonneg (n : nat) : 0 <= of_nat n.
Proof.
  unfold of_nat, Qle. simpl. lia.
Qed.

Lemma of_nat_le (n m : nat) : (n <= m)%nat -> of_nat n <= of_nat m.
Proof.
  intro H. unfold of_nat. rewrite <- Zle_Qle. lia.
Qed.

Lemma of_nat_pos (n : nat) : (0 < n)%nat -> 0 < of_nat n.
Proof.
  intro H. unfold of_nat. change 0 with (inject_Z 0). rewrite <- Zlt_Qlt. lia.
Qed.

Lemma of_nat_inj (n m : nat) : of_nat n == of_nat m -> n = m.
Proof.
  unfold of_nat. rewrite inject_Z_injective. lia.
Qed.

Lemma Qdiv_lt_1 (a h : Q) : 0 < h -> (a * / h < 1 <-> a < h).
Proof.
  intro Hh. split; intro H.
  - assert (E : a == a * / h * h) by (field; lra).
    assert (H2 : a * / h * h < 1 * h)
      by (apply Qmult_lt_compat_r; assumption).
    rewrite E. rewrite Qmult_1_l in H2. exact H2.
  - change (a / h < 1). apply Qlt_shift_div_r; lra.
Qed.

(** The mask entry of one data point says that it lies strictly within half
    a bin width of the query point. *)
Lemma within_half_bin (w xi dj : Q) :
  0 < w ->
  Qltb (Qabs ((dj - xi) / (w / 2))) 1 = true <-> Qabs (dj - xi) < w / 2.
Proof.
  intro Hw.
  assert (Hh : 0 < w / 2) by (apply Qlt_shift_div_l; lra).
  rewrite Qltb_iff.
  unfold Qdiv at 1. rewrite Qabs_Qmult, Qabs_Qinv.
  rewrite (Qabs_pos (w / 2)) by lra.
  apply Qdiv_lt_1. exact Hh.
Qed.

(** One entry of the histogram, as a fraction of the data count. *)
Lemma value_bounds (w : Q) (c n : nat) :
  0 < w -> (0 < n)%nat -> (c <= n)%nat ->
  0 <= of_nat c / (of_nat n * w) <= 1 / w /\
  (of_nat c / (of_nat n * w) == 1 / w <-> c = n).
Proof.
  intros Hw Hn Hc.
  pose proof (of_nat_pos n Hn) as Hnp.
  pose proof (of_nat_nonneg c) as Hc0.
  pose proof (of_nat_le c n Hc) as Hcn.
  assert (Hd : 0 < of_nat n * w) by (apply Qmult_lt_0_compat; assumption).
  assert (E : of_nat c / (of_nat n * w) == (of_nat c / of_nat n) * (1 / w)).
  { field. split; lra. }
  assert (Hr0 : 0 <= of_nat c / of_nat n) by (apply Qle_shift_div_l; lra).
  assert (Hr1 : of_nat c / of_nat n <= 1) by (apply Qle_shift_div_r; lra).
  assert (Hiw : 0 < 1 / w) by (apply Qlt_shift_div_l; lra).
  split; [split|split].
  - rewrite E. apply Qmult_le_0_compat; lra.
  - rewrite E. rewrite <- (Qmult_1_l (1 / w)) at 2.
    apply Qmult_le_compat_r; lra.
  - intro H. rewrite E in H.
    assert (H1 : of_nat c / of_nat n == 1).
    { apply (Qmult_inj_r _ _ (1 / w)); [lra|]. rewrite H. ring. }
    apply of_nat_inj.
    assert (H2 : of_nat c == (of_nat c / of_nat n) * of_nat n)
      by (field; lra).
    rewrite H2, H1. ring.
  - intros ->. field. split; lra.
Qed.

(** C10.  In exact arithmetic, for a positive bin width and non-empty
    data, every value of [point_centered_histogram x bin_width data] lies
    between [0] and [1 / bin_width]; the value at a query point is
    [1 / bin_width] exactly when every data point lies strictly within half
    a bin width of it. *)
Theorem point_centered_histogram_bounds (x : list Q) (bin_width : Q)
  (data : list Q) :
  0 < bin_width -> data <> [] ->
  length (point_centered_histogram x bin_width data) = length x /\
  Forall (fun v => 0 <= v <= 1 / bin_width)
         (point_centered_histogram x bin_width data) /\
  forall i xi, nth_error x i = Some xi ->
    exists v, nth_error (point_centered_histogram x bin_width data) i = Some v /\
      (v == 1 / bin_width <->
       Forall (fun dj => Qabs (dj - xi) < bin_width / 2) data).
Proof.
  intros Hw Hdata.
  assert (Hn : (0 < length data)%nat) by (destruct data; simpl; [congruence|lia]).
  unfold point_centered_histogram, scaled_offsets.
  rewrite !map_map.
  split; [apply length_map|].
  split.
  - apply Forall_forall. intros v Hin.
    apply in_map_iff in Hin. destruct Hin as [xi [<- _]].
    apply value_bounds; try assumption.
    etransitivity; [apply count_true_le|].
    rewrite !length_map. reflexivity.
  - intros i xi Hi.
    eexists. split.
    + rewrite nth_error_map, Hi. reflexivity.
    + set (mask := map (fun v => Qltb (Qabs v) 1)
                     (map (fun dj => (dj - xi) / (bin_width / 2)) data)).
      assert (Hlen : length mask = length data)
        by (unfold mask; rewrite !length_map; reflexivity).
      pose proof (count_true_le mask) as Hle. rewrite Hlen in Hle.
      destruct (value_bounds bin_width (count_true mask) (length data)
                  Hw Hn Hle) as [_ Heq].
      rewrite Heq, <- Hlen, count_true_all.
      unfold mask. rewrite map_map, Forall_map.
      rewrite !Forall_forall.
      split; intros H dj Hdj; apply (within_half_bin bin_width xi dj Hw);
        apply H; exact Hdj.
Qed.

(** The trivial data of the notebook, [data = [1., 1.2, 3.]], at bin width
    [0.3]: the query point [1.1] sees two of the three points. *)
Example point_centered_histogram_notebook :
  point_centered_histogram [11 # 10] (3 # 10) [1; 12 # 10; 3]
  = [(2 # 1) / ((3 # 1) * (3 # 10))].
Proof. reflexivity. Qed.

Lemma point_centered_histogram_bounds_witness :
  let x := [1; 2] in
  let data := [1; 12 # 10] in
  0 < 1 /\ data <> [] /\
  point_centered_histogram x 1 data
  = [(2 # 1) / ((2 # 1) * 1); 0 / ((2 # 1) * 1)] /\
  length (point_centered_histogram x 1 data) = length x /\
  Forall (fun v => 0 <= v <= 1 / 1) (point_centered_histogram x 1 data) /\
  forall i xi, nth_error x i = Some xi ->
    exists v, nth_error (point_centered_histogram x 1 data) i = Some v /\
      (v == 1 / 1 <-> Forall (fun dj => Qabs (dj - xi) < 1 / 2) data).
Proof.
  intros x data.
  assert (Hw : 0 < 1) by reflexivity.
  assert (Hd : data <> []) by discriminate.
  split; [exact Hw|]. split; [exact Hd|]. split; [reflexivity|].
  exact (point_centered_histogram_bounds x 1 data Hw Hd).
Defined.

End KDE_Facts.

Module KDE_Float64_Facts.
Import PrimFloat.
Local Open Scope float_scope.

(** In binary64 the bound does not hold: with the query point 1, the float
    nearest to 0.7 as bin width and three data points at 1, all of them
    inside the window, the value returned is 1.4285714285714288, above
    [1 / bin_width = 1.4285714285714286], and its product with the bin
    width is above 1. *)
Lemma point_centered_histogram_float64_exceeds :
  let w := 0x1.6666666666666p-1 in
  let values :=
    KDE_Float64.point_centered_histogram [1] w [1; 1; 1] in
  ltb 0 w = true /\
  map (fun v => leb v (1 / w)) values = [false] /\
  map (fun v => ltb (1 / w) v) values = [true] /\
  map (fun v => ltb 1 (v * w)) values = [true].
Proof. vm_compute. repeat split. Qed.

End KDE_Float64_Facts.

Module Selection_Facts.
Import Selection FittingLoop.
Local Open Scope Q_scope.

Lemma zip_with_length {A B C : Type} (f : A -> B -> C) (l : list A)
  (m : list B) :
  length l = length m -> length (zip_with f l m) = length l.
Proof.
  revert m. induction l as [|a l IH]; intros [|b m] H; simpl in *;
    try reflexivity; try discriminate.
  f_equal. apply IH. lia.
Qed.

Lemma zip_with_nth_error {A B C : Type} (f : A -> B -> C) (l : list A)
  (m : list B) (i : nat) :
  nth_error (zip_with f l m) i =
  match nth_error l i, nth_error m i with
  | Some a, Some b => Some (f a b)
  | _, _ => None
  end.
Proof.
  revert m i. induction l as [|a l IH]; intros [|b m] [|i]; simpl;
    try reflexivity.
  - destruct (nth_error l i); reflexivity.
  - apply IH.
Qed.

Lemma rand_length (n : nat) (s : RandomState) : length (fst (rand n s)) = n.
Proof. unfold rand. simpl. rewrite length_map, length_seq. reflexivity. Qed.

(** What [ramp_range] computes on an array with at least one column. *)
Lemma ramp_range_unfold (coords : ndarray2) (s : RandomState) :
  (0 < ncols coords)%nat ->
  let c := map (fun r => hd 0 r) (rows coords) in
  ramp_range coords s =
  (Some (zip_with andb
           (zip_with KDE.Qltb (map (fun z => z - z_cl) c)
              (map (fun r => r * (1 - z_cl)) (fst (rand (len coords) s))))
           (zip_with andb (map (fun z => Qle_bool 0 z) c)
              (map (fun z => Qle_bool z 1) c))),
   snd (rand (len coords) s)).
Proof.
  intros Hc c. unfold ramp_range, ramp, zrange, column0, bind, ret.
  destruct (ncols coords) as [|d]; [lia|]. reflexivity.
Qed.

Lemma outside_unit_interval (z : Q) :
  ~ (0 <= z <= 1) -> Qle_bool 0 z && Qle_bool z 1 = false.
Proof.
  intro H. apply andb_false_iff.
  destruct (Qle_bool 0 z) eqn:E0; [|left; reflexivity].
  destruct (Qle_bool z 1) eqn:E1; [|right; reflexivity].
  exfalso. apply H. split; apply Qle_bool_iff; assumption.
Qed.

(** C9.  On every coordinate array with a first column, and whatever the
    generator draws, [ramp_range] returns one boolean per row, and [False]
    at every row whose first coordinate lies outside [[0, 1]], the bounding
    box of the background component. *)
Theorem ramp_range_rejects_outside_box (coords : ndarray2)
  (s : RandomState) :
  (0 < ncols coords)%nat ->
  exists sel, fst (ramp_range coords s) = Some sel /\
    length sel = len coords /\
    forall i row z, nth_error (rows coords) i = Some row ->
      nth_error row 0 = Some z -> ~ (0 <= z <= 1) ->
      nth_error sel i = Some false.
Proof.
  intro Hc. rewrite (ramp_range_unfold coords s Hc). simpl fst.
  eexists. split; [reflexivity|]. split.
  - rewrite zip_with_length.
    + rewrite zip_with_length; rewrite !length_map; [reflexivity|].
      rewrite length_seq. reflexivity.
    + rewrite !zip_with_length; rewrite !length_map; try reflexivity.
      rewrite length_seq. reflexivity.
  - intros i row z Hrow Hz Hout.
    assert (Hi : (i < len coords)%nat).
    { apply nth_error_Some. unfold len. congruence. }
    assert (Hhd : hd 0 row = z) by (destruct row; simpl in *; congruence).
    rewrite !zip_with_nth_error, !nth_error_map, Hrow. simpl.
    rewrite Hhd.
    rewrite (nth_error_nth' (seq 0 (len coords)) O)
      by (rewrite length_seq; exact Hi).
    simpl. rewrite (outside_unit_interval z Hout).
    rewrite andb_false_r. reflexivity.
Qed.

Lemma ramp_range_rejects_outside_box_witness :
  let coords := {| ncols := 1; rows := [[12 # 10]; [1 # 2]; [-1 # 10]] |} in
  let s := {| draws := fun _ => 99 # 100; pos := 0 |} in
  (0 < ncols coords)%nat /\
  fst (ramp_range coords s) = Some [false; true; false] /\
  exists sel, fst (ramp_range coords s) = Some sel /\
    length sel = len coords /\
    forall i row z, nth_error (rows coords) i = Some row ->
      nth_error row 0 = Some z -> ~ (0 <= z <= 1) ->
      nth_error sel i = Some false.
Proof.
  intros coords s.
  assert (Hc : (0 < ncols coords)%nat) by (simpl; lia).
  split; [exact Hc|]. split; [reflexivity|].
  exact (ramp_range_rejects_outside_box coords s Hc).
Defined.


Lemma zip_with_ext_in {A B C : Type} (f : A -> B -> C) (l : list A)
  (m m' : list B) :
  length m = length m' ->
  (forall i a b b', nth_error l i = Some a -> nth_error m i = Some b ->
     nth_error m' i = Some b' -> f a b = f a b') ->
  zip_with f l m = zip_with f l m'.
Proof.
  revert m m'. induction l as [|a l IH]; intros [|b m] [|b' m'] Hlen H;
    simpl in *; try reflexivity; try discriminate.
  f_equal.
  - apply (H O a b b'); reflexivity.
  - apply IH; [lia|]. intros i x y y' Hx Hy Hy'.
    apply (H (S i) x y y'); assumption.
Qed.

Lemma Qltb_compat_r (a b b' : Q) : b == b' -> KDE.Qltb a b = KDE.Qltb a b'.
Proof.
  intro E. unfold KDE.Qltb. f_equal.
  destruct (Qle_bool b a) eqn:E1, (Qle_bool b' a) eqn:E2; try reflexivity.
  - apply Qle_bool_iff in E1. rewrite E in E1. apply Qle_bool_iff in E1.
    congruence.
  - apply Qle_bool_iff in E2. rewrite <- E in E2. apply Qle_bool_iff in E2.
    congruence.
Qed.

(** The selection callback is a function of its input and of the next
    [len(coords)] draws of the generator. *)
Lemma sel_callback_determined (coords : ndarray2) (s1 s2 : RandomState) :
  (forall i, (i < len coords)%nat ->
     draws s1 (pos s1 + i)%nat == draws s2 (pos s2 + i)%nat) ->
  fst (sel_callback coords s1) = fst (sel_callback coords s2).
Proof.
  intro Hd. unfold sel_callback.
  destruct (Nat.eq_dec (ncols coords) 0) as [E|E].
  - unfold ramp_range, ramp, column0, bind, ret. rewrite E. reflexivity.
  - rewrite !ramp_range_unfold by lia. simpl fst.
    do 2 f_equal.
    apply zip_with_ext_in.
    + rewrite !length_map, !length_seq. reflexivity.
    + intros i a b b' _ Hb Hb'.
      rewrite nth_error_map in Hb, Hb'.
      assert (Hi : (i < len coords)%nat).
      { destruct (nth_error (map _ (seq 0 (len coords))) i) eqn:En;
          [|discriminate].
        rewrite <- (length_seq (len coords) 0).
        rewrite <- (length_map (fun i0 => draws s1 (pos s1 + i0)%nat)).
        apply nth_error_Some. congruence. }
      rewrite nth_error_map in Hb, Hb'.
      rewrite (nth_error_nth' (seq 0 (len coords)) O) in Hb, Hb'
        by (rewrite length_seq; exact Hi).
      rewrite seq_nth in Hb, Hb' by exact Hi.
      simpl in Hb, Hb'. injection Hb as <-. injection Hb' as <-.
      apply Qltb_compat_r. rewrite (Hd i Hi). reflexivity.
Qed.

Lemma sel_callback_advances (coords : ndarray2) (s : RandomState) :
  (0 < ncols coords)%nat ->
  pos (snd (sel_callback coords s)) = (pos s + len coords)%nat.
Proof.
  intro Hc. unfold sel_callback. rewrite ramp_range_unfold by exact Hc.
  reflexivity.
Qed.

(** *** What the callbacks and the loop around them leave untouched *)

Lemma lift_result {A : Type} (m : Rand A) (w : World) :
  fst (lift m w) = fst (m (generator w)) /\
  generator (snd (lift m w)) = snd (m (generator w)) /\
  written (snd (lift m w)) = written w.
Proof. unfold lift. destruct (m (generator w)) as [a s]. auto. Qed.

Lemma silent_lift {A : Type} (m : Rand A) : silent (lift m).
Proof. intro w. apply lift_result. Qed.

Lemma silent_eret {A : Type} (a : A) : silent (eret a).
Proof. intro w. reflexivity. Qed.

Lemma silent_ebind {A B : Type} (m : Eff A) (k : A -> Eff B) :
  silent m -> (forall a, silent (k a)) -> silent (ebind m k).
Proof.
  intros Hm Hk w. unfold ebind. specialize (Hm w).
  destruct (m w) as [a w']. simpl in Hm. rewrite (Hk a w'). exact Hm.
Qed.

(** A message written out stays written: code that writes is not
    silent. *)
Lemma write_not_silent (msg : String.string) : ~ silent (write msg).
Proof.
  intro H. specialize (H {| generator := {| draws := fun _ => 0; pos := 0 |};
                            written := [] |}).
  discriminate H.
Qed.

Lemma silent_iteration (Model : Type) (draw : Model -> Rand ndarray2)
  (pass : Model -> list (list Q) -> list (list Q) -> Model)
  (sel : ndarray2 -> Eff (option (list bool)))
  (noise : ndarray2 -> Eff (list (list Q))) (theta : Model) :
  (forall c, silent (sel c)) -> (forall c, silent (noise c)) ->
  silent (iteration Model draw pass sel noise theta).
Proof.
  intros Hs Hn. unfold iteration.
  apply silent_ebind; [apply silent_lift|]. intro synthetic.
  apply silent_ebind; [apply Hs|]. intro accepted.
  apply silent_ebind; [apply Hn|]. intro covar.
  apply silent_eret.
Qed.

(** A fit writes nothing out unless one of its callbacks does. *)
Lemma silent_fit_with_callbacks (Model : Type)
  (draw : Model -> Rand ndarray2)
  (pass : Model -> list (list Q) -> list (list Q) -> Model)
  (sel : ndarray2 -> Eff (option (list bool)))
  (noise : ndarray2 -> Eff (list (list Q))) (n : nat) (theta : Model) :
  (forall c, silent (sel c)) -> (forall c, silent (noise c)) ->
  silent (fit_with_callbacks Model draw pass sel noise n theta).
Proof.
  intros Hs Hn. revert theta. induction n as [|n IH]; intro theta.
  - apply silent_eret.
  - simpl. apply silent_ebind; [apply silent_iteration; assumption|].
    intros [theta'|]; [apply IH|apply silent_eret].
Qed.



End Selection_Facts.

Module EM_Facts.
Import EM.
Local Open Scope R_scope.

(** *** Sums over arrays *)

Lemma Rsum_map_ext_in {A : Type} (f g : A -> R) (l : list A) :
  (forall x, In x l -> f x = g x) -> Rsum (map f l) = Rsum (map g l).
Proof. intro H. f_equal. apply map_ext_in. exact H. Qed.

Lemma Rsum_map_plus {A : Type} (f g : A -> R) (l : list A) :
  Rsum (map (fun x => f x + g x) l) = Rsum (map f l) + Rsum (map g l).
Proof. induction l as [|a l IH]; simpl; [|rewrite IH]; ring. Qed.

Lemma Rsum_map_minus {A : Type} (f g : A -> R) (l : list A) :
  Rsum (map (fun x => f x - g x) l) = Rsum (map f l) - Rsum (map g l).
Proof. induction l as [|a l IH]; simpl; [|rewrite IH]; ring. Qed.

Lemma Rsum_map_scal_l {A : Type} (a : R) (f : A -> R) (l : list A) :
  Rsum (map (fun x => a * f x) l) = a * Rsum (map f l).
Proof. induction l as [|b l IH]; simpl; [|rewrite IH]; ring. Qed.

Lemma Rsum_map_scal_r {A : Type} (a : R) (f : A -> R) (l : list A) :
  Rsum (map (fun x => f x * a) l) = Rsum (map f l) * a.
Proof. induction l as [|b l IH]; simpl; [|rewrite IH]; ring. Qed.

Lemma Rsum_map_div {A : Type} (a : R) (f : A -> R) (l : list A) :
  Rsum (map (fun x => f x / a) l) = Rsum (map f l) / a.
Proof. unfold Rdiv. apply Rsum_map_scal_r. Qed.

Lemma Rsum_map_const {A : Type} (a : R) (l : list A) :
  Rsum (map (fun _ => a) l) = INR (length l) * a.
Proof.
  induction l as [|b l IH]; [simpl; ring|].
  change (Rsum (map (fun _ => a) (b :: l)))
    with (a + Rsum (map (fun _ => a) l)).
  rewrite IH. change (length (b :: l)) with (S (length l)).
  rewrite S_INR. ring.
Qed.

Lemma Rsum_map_le {A : Type} (f g : A -> R) (l : list A) :
  (forall x, In x l -> f x <= g x) -> Rsum (map f l) <= Rsum (map g l).
Proof.
  induction l as [|a l IH]; intro H; simpl; [lra|].
  assert (f a <= g a) by (apply H; left; reflexivity).
  assert (Rsum (map f l) <= Rsum (map g l))
    by (apply IH; intros x Hx; apply H; right; exact Hx).
  lra.
Qed.

Lemma Rsum_map_nonneg {A : Type} (f : A -> R) (l : list A) :
  (forall x, In x l -> 0 <= f x) -> 0 <= Rsum (map f l).
Proof.
  intro H. induction l as [|a l IH]; simpl; [lra|].
  assert (0 <= f a) by (apply H; left; reflexivity).
  assert (0 <= Rsum (map f l))
    by (apply IH; intros x Hx; apply H; right; exact Hx).
  lra.
Qed.

Lemma Rsum_map_pos {A : Type} (f : A -> R) (l : list A) :
  l <> [] -> (forall x, In x l -> 0 < f x) -> 0 < Rsum (map f l).
Proof.
  intros Hne H. destruct l as [|a l]; [congruence|]. simpl.
  assert (0 < f a) by (apply H; left; reflexivity).
  assert (0 <= Rsum (map f l)).
  { apply Rsum_map_nonneg. intros x Hx. apply Rlt_le, H. right. exact Hx. }
  lra.
Qed.

(** A nonnegative sum with one positive term is positive. *)
Lemma Rsum_map_pos_one {A : Type} (f : A -> R) (l : list A) (a : A) :
  In a l -> 0 < f a -> (forall x, In x l -> 0 <= f x) -> 0 < Rsum (map f l).
Proof.
  intros Hin Ha H. induction l as [|b l IH]; [contradiction|]. simpl.
  assert (Hb : 0 <= f b) by (apply H; left; reflexivity).
  assert (Hl : 0 <= Rsum (map f l)).
  { apply Rsum_map_nonneg. intros x Hx. apply H. right. exact Hx. }
  destruct Hin as [->|Hin]; [lra|].
  assert (0 < Rsum (map f l)).
  { apply IH; [exact Hin|]. intros x Hx. apply H. right. exact Hx. }
  lra.
Qed.

(** The order of two nested sums does not matter. *)
Lemma Rsum_exchange {A B : Type} (f : A -> B -> R) (xs : list A)
  (ys : list B) :
  Rsum (map (fun x => Rsum (map (f x) ys)) xs) =
  Rsum (map (fun y => Rsum (map (fun x => f x y) xs)) ys).
Proof.
  induction xs as [|x xs IH]; simpl.
  - rewrite Rsum_map_const. ring.
  - rewrite IH, <- Rsum_map_plus. reflexivity.
Qed.

Lemma INR_length_pos {A : Type} (l : list A) : l <> [] -> 0 < INR (length l).
Proof.
  intro H. destruct l as [|a l]; [congruence|].
  apply lt_0_INR. simpl. lia.
Qed.

(** *** The E-step, entry by entry *)

Section Steps.
Variable pdf : vec -> mat -> vec -> R.
Variable regularize : mat -> mat.

Lemma e_step_length (theta : Mixture) (samples : list vec) :
  length (e_step pdf theta samples) = length samples.
Proof. unfold e_step. apply length_map. Qed.

Lemma e_step_entry (theta : Mixture) (samples : list vec) (i k : nat)
  (x : vec) (c : Component) :
  nth_error samples i = Some x ->
  nth_error (components theta) k = Some c ->
  exists row, nth_error (e_step pdf theta samples) i = Some row /\
    nth_error row k = Some (responsibility pdf theta x c).
Proof.
  intros Hx Hc. unfold e_step.
  eexists. split.
  - rewrite nth_error_map, Hx. reflexivity.
  - rewrite nth_error_map, Hc. reflexivity.
Qed.

Lemma column_e_step (theta : Mixture) (samples : list vec) (k : nat)
  (c : Component) :
  nth_error (components theta) k = Some c ->
  column k (e_step pdf theta samples) =
  map (fun x => responsibility pdf theta x c) samples.
Proof.
  intro Hc. unfold column, e_step. rewrite map_map.
  apply map_ext. intro x.
  apply nth_error_nth.
  rewrite nth_error_map, Hc. reflexivity.
Qed.

(** The rows of [combine (seq a n) l] pair every entry with its index. *)
Lemma in_combine_seq {A : Type} (l : list A) (a k : nat) (c : A) :
  In (k, c) (combine (seq a (length l)) l) ->
  (a <= k)%nat /\ nth_error l (k - a) = Some c.
Proof.
  revert a. induction l as [|b l IH]; intros a H; simpl in H; [contradiction|].
  destruct H as [H|H].
  - injection H as <- <-. rewrite Nat.sub_diag. split; [lia|reflexivity].
  - apply IH in H. destruct H as [Hle H]. split; [lia|].
    replace (k - a)%nat with (S (k - S a)) by lia. exact H.
Qed.

Lemma map_snd_combine_seq {A B : Type} (g : A -> B) (l : list A) (a : nat) :
  map (fun kc : nat * A => g (snd kc)) (combine (seq a (length l)) l) =
  map g l.
Proof.
  revert a. induction l as [|b l IH]; intro a; simpl; [reflexivity|].
  rewrite IH. reflexivity.
Qed.

Lemma nth_error_combine_seq {A : Type} (l : list A) (k : nat) (c : A) :
  nth_error l k = Some c ->
  nth_error (combine (seq 0 (length l)) l) k = Some (k, c).
Proof.
  intro H.
  assert (G : forall a, nth_error (combine (seq a (length l)) l) k
                        = Some ((a + k)%nat, c)).
  { revert k H. induction l as [|b l IH]; intros [|k] H a; simpl in *;
      try discriminate.
    - injection H as ->. rewrite Nat.add_0_r. reflexivity.
    - rewrite (IH k H (S a)). do 2 f_equal. lia. }
  apply (G O).
Qed.

(** *** The M-step, component by component *)

Lemma em_step_components (frozen : Frozen) (samples : list vec)
  (theta : Mixture) :
  components (em_step pdf regularize frozen samples theta) =
  map (fun kc => updated pdf regularize frozen samples theta (fst kc) (snd kc))
      (combine (seq 0 (length (components theta))) (components theta)).
Proof. reflexivity. Qed.

Lemma em_step_length (frozen : Frozen) (samples : list vec)
  (theta : Mixture) :
  length (components (em_step pdf regularize frozen samples theta)) =
  length (components theta).
Proof.
  rewrite em_step_components, length_map, length_combine, length_seq.
  apply Nat.min_id.
Qed.

Lemma em_step_nth_error (frozen : Frozen) (samples : list vec)
  (theta : Mixture) (k : nat) (c : Component) :
  nth_error (components theta) k = Some c ->
  nth_error (components (em_step pdf regularize frozen samples theta)) k =
  Some (updated pdf regularize frozen samples theta k c).
Proof.
  intro H. rewrite em_step_components, nth_error_map.
  rewrite (nth_error_combine_seq _ k c H). reflexivity.
Qed.

Lemma updated_amp (frozen : Frozen) (samples : list vec) (theta : Mixture)
  (k : nat) (c : Component) :
  nth_error (components theta) k = Some c ->
  amp (updated pdf regularize frozen samples theta k c) =
  Rsum (map (fun x => responsibility pdf theta x c) samples)
  / INR (length samples).
Proof.
  intro H. unfold updated, m_step_component. simpl.
  rewrite (column_e_step theta samples k c H). reflexivity.
Qed.

(** The new Gaussian amplitudes, summed. *)
Lemma em_step_amp_sum (frozen : Frozen) (samples : list vec)
  (theta : Mixture) :
  Rsum (map amp (components (em_step pdf regularize frozen samples theta))) =
  Rsum (map (fun x =>
               Rsum (map (responsibility pdf theta x) (components theta)))
            samples)
  / INR (length samples).
Proof.
  rewrite em_step_components, map_map.
  rewrite (Rsum_map_ext_in _
             (fun kc => Rsum (map (fun x => responsibility pdf theta x (snd kc))
                                  samples) / INR (length samples))).
  - rewrite (map_snd_combine_seq
               (fun c => Rsum (map (fun x => responsibility pdf theta x c)
                                   samples) / INR (length samples))).
    rewrite Rsum_map_div. f_equal.
    symmetry. apply Rsum_exchange.
  - intros [k c] Hin. cbn [fst snd].
    apply in_combine_seq in Hin. destruct Hin as [_ Hin].
    rewrite Nat.sub_0_r in Hin. apply updated_amp. exact Hin.
Qed.

(** Away from the guard, a responsibility is the share of the component in
    the denominator. *)
Lemma responsibility_share (theta : Mixture) (x : vec) (c : Component) :
  denominator pdf theta x <> 0 ->
  responsibility pdf theta x c
  = weighted_density pdf x c / denominator pdf theta x.
Proof.
  intro H. unfold responsibility.
  destruct (Req_EM_T (denominator pdf theta x) 0); [contradiction|reflexivity].
Qed.

Lemma background_responsibility_share (theta : Mixture) (x : vec) :
  denominator pdf theta x <> 0 ->
  background_responsibility pdf theta x
  = background_term theta x / denominator pdf theta x.
Proof.
  intro H. unfold background_responsibility.
  destruct (Req_EM_T (denominator pdf theta x) 0); [contradiction|reflexivity].
Qed.

(** Every row of responsibilities, the background's included, sums to 1:
    the ResponsibilityMatrix is row-stochastic. *)
Lemma responsibility_row_sum (theta : Mixture) (x : vec) :
  components theta <> [] \/ background theta <> None ->
  Rsum (map (responsibility pdf theta x) (components theta))
  + background_responsibility pdf theta x = 1.
Proof.
  intro Hterm. unfold responsibility, background_responsibility.
  destruct (Req_EM_T (denominator pdf theta x) 0) as [E|E].
  - destruct (background theta) as [b|].
    + rewrite Rsum_map_const. ring.
    + rewrite Rsum_map_const.
      assert (0 < INR (length (components theta))).
      { apply INR_length_pos. destruct Hterm as [H|H]; congruence. }
      field. lra.
  - rewrite Rsum_map_div.
    replace (Rsum (map (weighted_density pdf x) (components theta)))
      with (denominator pdf theta x - background_term theta x)
      by (unfold denominator; ring).
    field. exact E.
Qed.

(** *** The fitting loop *)

(** Every fit is a number of EM iterations, at most the iteration cap and
    at least one when the cap allows it, and reports that number. *)
Lemma fit_loop_em_iter (frozen : Frozen) (samples : list vec) (tol : R)
  (maxiter : nat) (theta : Mixture) (it : nat) :
  exists n, (n <= maxiter)%nat /\ (1 <= maxiter -> 1 <= n)%nat /\
    fit_loop pdf regularize frozen samples tol maxiter theta it =
    (em_iter pdf regularize frozen samples n theta, (it + n)%nat).
Proof.
  revert theta it. induction maxiter as [|fuel IH]; intros theta it.
  - exists O. split; [lia|]. split; [lia|].
    simpl. rewrite Nat.add_0_r. reflexivity.
  - simpl.
    destruct (Rlt_dec _ tol) as [_|_].
    + exists 1%nat. split; [lia|]. split; [lia|].
      simpl. rewrite Nat.add_1_r. reflexivity.
    + destruct (IH (em_step pdf regularize frozen samples theta) (S it))
        as [n [Hn [_ E]]].
      exists (S n). split; [lia|]. split; [lia|].
      rewrite E. f_equal; [|lia].
      clear. induction n as [|n IHn]; [reflexivity|].
      simpl. rewrite IHn. reflexivity.
Qed.

Lemma fit_em_iter (frozen : Frozen) (samples : list vec) (tol : R)
  (maxiter : nat) (theta : Mixture) :
  exists n, (n <= maxiter)%nat /\ (1 <= maxiter -> 1 <= n)%nat /\
    fit pdf regularize frozen samples tol maxiter theta =
    (em_iter pdf regularize frozen samples n theta, n).
Proof. apply (fit_loop_em_iter frozen samples tol maxiter theta O). Qed.

(** *** The amplitudes after an M-step *)

Lemma em_step_background (frozen : Frozen) (samples : list vec)
  (theta : Mixture) :
  background (em_step pdf regularize frozen samples theta) =
  match background theta with
  | Some b =>
      Some {| bg_amp := 1 - Rsum (map amp (components
                                     (em_step pdf regularize frozen samples
                                        theta)));
              bg_density := bg_density b |}
  | None => None
  end.
Proof. reflexivity. Qed.

(** A state with a term to assign a sample to keeps one. *)
Lemma em_step_has_term (frozen : Frozen) (samples : list vec)
  (theta : Mixture) :
  components theta <> [] \/ background theta <> None ->
  components (em_step pdf regularize frozen samples theta) <> [] \/
  background (em_step pdf regularize frozen samples theta) <> None.
Proof.
  intros [H|H].
  - left. intro E. apply (f_equal (@length Component)) in E.
    rewrite em_step_length in E.
    destruct (components theta); [congruence|discriminate].
  - right. rewrite em_step_background.
    destruct (background theta); [discriminate|congruence].
Qed.

Lemma em_iter_has_term (frozen : Frozen) (samples : list vec)
  (theta : Mixture) (n : nat) :
  components theta <> [] \/ background theta <> None ->
  components (em_iter pdf regularize frozen samples n theta) <> [] \/
  background (em_iter pdf regularize frozen samples n theta) <> None.
Proof.
  intro H. induction n as [|n IH]; [exact H|].
  simpl. apply em_step_has_term. exact IH.
Qed.

Lemma background_responsibility_none (theta : Mixture) (x : vec) :
  background theta = None -> background_responsibility pdf theta x = 0.
Proof.
  intro Hb. unfold background_responsibility, background_term. rewrite Hb.
  destruct (Req_EM_T (denominator pdf theta x) 0); [reflexivity|].
  unfold Rdiv. ring.
Qed.

(** The Gaussian amplitudes after the M-step sum to what the background
    leaves of the samples. *)
Lemma em_step_amp_sum_background (frozen : Frozen) (samples : list vec)
  (theta : Mixture) :
  samples <> [] ->
  components theta <> [] \/ background theta <> None ->
  Rsum (map amp (components (em_step pdf regularize frozen samples theta))) =
  1 - Rsum (map (background_responsibility pdf theta) samples)
      / INR (length samples).
Proof.
  intros Hne Hterm. rewrite em_step_amp_sum.
  rewrite (Rsum_map_ext_in _
             (fun x => 1 - background_responsibility pdf theta x)).
  - rewrite Rsum_map_minus, Rsum_map_const.
    pose proof (INR_length_pos samples Hne). field. lra.
  - intros x _. pose proof (responsibility_row_sum theta x Hterm). lra.
Qed.

(** The amplitudes sum to 1 after the M-step, whatever they were before. *)
Lemma em_step_total_amplitude (frozen : Frozen) (samples : list vec)
  (theta : Mixture) :
  samples <> [] ->
  components theta <> [] \/ background theta <> None ->
  total_amplitude (em_step pdf regularize frozen samples theta) = 1.
Proof.
  intros Hne Hterm. unfold total_amplitude.
  pose proof (em_step_amp_sum_background frozen samples theta Hne Hterm)
    as Hsum.
  rewrite em_step_background.
  destruct (background theta) as [b|] eqn:Hb; [simpl; ring|].
  rewrite Hsum.
  rewrite (Rsum_map_ext_in _ (fun _ => 0))
    by (intros x _; apply background_responsibility_none; exact Hb).
  rewrite Rsum_map_const. unfold Rdiv. ring.
Qed.

Lemma background_term_nonneg (theta : Mixture) (samples : list vec)
  (x : vec) :
  amplitudes_nonneg theta -> background_nonneg theta samples ->
  In x samples -> 0 <= background_term theta x.
Proof.
  intros [_ Ha] Hb Hx. unfold background_term.
  destruct (background theta) as [b|] eqn:E; [|lra].
  apply Rmult_le_pos; [apply Ha; reflexivity|apply (Hb b E x Hx)].
Qed.

Lemma denominator_nonneg (theta : Mixture) (samples : list vec) (x : vec) :
  (forall mu sigma y, 0 <= pdf mu sigma y) ->
  amplitudes_nonneg theta -> background_nonneg theta samples ->
  In x samples -> 0 <= denominator pdf theta x.
Proof.
  intros Hpdf Ha Hb Hx. unfold denominator.
  pose proof (background_term_nonneg theta samples x Ha Hb Hx).
  assert (0 <= Rsum (map (weighted_density pdf x) (components theta))).
  { apply Rsum_map_nonneg. intros c Hc. unfold weighted_density.
    apply Rmult_le_pos; [|apply Hpdf].
    destruct Ha as [Ha _]. rewrite Forall_forall in Ha. apply Ha, Hc. }
  lra.
Qed.

Lemma responsibility_nonneg (theta : Mixture) (samples : list vec) (x : vec)
  (c : Component) :
  (forall mu sigma y, 0 <= pdf mu sigma y) ->
  amplitudes_nonneg theta -> background_nonneg theta samples ->
  In x samples -> In c (components theta) ->
  0 <= responsibility pdf theta x c.
Proof.
  intros Hpdf Ha Hb Hx Hc. unfold responsibility.
  pose proof (denominator_nonneg theta samples x Hpdf Ha Hb Hx) as Hd.
  destruct (Req_EM_T (denominator pdf theta x) 0) as [E|E].
  - destruct (background theta); [lra|].
    apply Rlt_le, Rinv_0_lt_compat, INR_length_pos.
    destruct (components theta); [contradiction|discriminate].
  - unfold weighted_density.
    apply Rmult_le_pos; [|apply Rlt_le, Rinv_0_lt_compat; lra].
    apply Rmult_le_pos; [|apply Hpdf].
    destruct Ha as [Ha _]. rewrite Forall_forall in Ha. apply Ha, Hc.
Qed.

Lemma background_responsibility_nonneg (theta : Mixture)
  (samples : list vec) (x : vec) :
  (forall mu sigma y, 0 <= pdf mu sigma y) ->
  amplitudes_nonneg theta -> background_nonneg theta samples ->
  In x samples -> 0 <= background_responsibility pdf theta x.
Proof.
  intros Hpdf Ha Hb Hx. unfold background_responsibility.
  pose proof (denominator_nonneg theta samples x Hpdf Ha Hb Hx) as Hd.
  destruct (Req_EM_T (denominator pdf theta x) 0) as [E|E].
  - destruct (background theta); lra.
  - apply Rmult_le_pos; [|apply Rlt_le, Rinv_0_lt_compat; lra].
    apply (background_term_nonneg theta samples x Ha Hb Hx).
Qed.

Lemma em_step_amplitudes_nonneg (frozen : Frozen) (samples : list vec)
  (theta : Mixture) :
  samples <> [] ->
  components theta <> [] \/ background theta <> None ->
  (forall mu sigma y, 0 <= pdf mu sigma y) ->
  background_nonneg theta samples ->
  amplitudes_nonneg theta ->
  amplitudes_nonneg (em_step pdf regularize frozen samples theta).
Proof.
  intros Hne Hterm Hpdf Hbg Hamp.
  pose proof (INR_length_pos samples Hne) as HN.
  pose proof (em_step_amp_sum_background frozen samples theta Hne Hterm)
    as Hsum.
  split.
  - apply Forall_forall. intros c' Hin.
    rewrite em_step_components in Hin. apply in_map_iff in Hin.
    destruct Hin as [[k c] [<- Hin]]. cbn [fst snd].
    apply in_combine_seq in Hin. destruct Hin as [_ Hin].
    rewrite Nat.sub_0_r in Hin. rewrite (updated_amp _ _ _ _ _ Hin).
    apply nth_error_In in Hin.
    apply Rmult_le_pos; [|apply Rlt_le, Rinv_0_lt_compat; exact HN].
    apply Rsum_map_nonneg. intros x Hx.
    apply (responsibility_nonneg theta samples); assumption.
  - intros b' Hb'. rewrite em_step_background in Hb'.
    destruct (background theta) as [b|] eqn:Hb; [|discriminate].
    injection Hb' as <-.
    change (0 <= 1 - Rsum (map amp (components
                                      (em_step pdf regularize frozen samples
                                         theta)))).
    rewrite Hsum.
    assert (0 <= Rsum (map (background_responsibility pdf theta) samples)
                 / INR (length samples)); [|lra].
    apply Rmult_le_pos; [|apply Rlt_le, Rinv_0_lt_compat; exact HN].
    apply Rsum_map_nonneg. intros x Hx.
    apply (background_responsibility_nonneg theta samples); assumption.
Qed.

Lemma em_step_background_nonneg (frozen : Frozen) (samples : list vec)
  (theta : Mixture) :
  background_nonneg theta samples ->
  background_nonneg (em_step pdf regularize frozen samples theta) samples.
Proof.
  intros H b' Hb' x Hx. rewrite em_step_background in Hb'.
  destruct (background theta) as [b|] eqn:Hb; [|discriminate].
  injection Hb' as <-. cbn [bg_density]. apply (H b Hb x Hx).
Qed.

Lemma em_iter_background_nonneg (frozen : Frozen) (samples : list vec)
  (theta : Mixture) (n : nat) :
  background_nonneg theta samples ->
  background_nonneg (em_iter pdf regularize frozen samples n theta) samples.
Proof.
  intro H. induction n as [|n IH]; [exact H|].
  simpl. apply em_step_background_nonneg. exact IH.
Qed.

Lemma em_iter_amplitudes_nonneg (frozen : Frozen) (samples : list vec)
  (theta : Mixture) (n : nat) :
  samples <> [] ->
  components theta <> [] \/ background theta <> None ->
  (forall mu sigma y, 0 <= pdf mu sigma y) ->
  background_nonneg theta samples ->
  amplitudes_nonneg theta ->
  amplitudes_nonneg (em_iter pdf regularize frozen samples n theta).
Proof.
  intros Hne Hterm Hpdf Hbg Hamp. induction n as [|n IH]; [exact Hamp|].
  simpl. apply em_step_amplitudes_nonneg; try assumption.
  - apply em_iter_has_term. exact Hterm.
  - apply em_iter_background_nonneg. exact Hbg.
Qed.


(** *** Vectors and matrices, coordinate by coordinate *)

Lemma coord_vscale (a : R) (v : vec) (d : nat) :
  coord d (vscale a v) = a * coord d v.
Proof.
  unfold coord, vscale. rewrite <- (Rmult_0_r a) at 1. apply map_nth.
Qed.

Lemma coord_zip_with (f : R -> R -> R) (u v : vec) (d : nat) :
  (d < length u)%nat -> (d < length v)%nat ->
  coord d (zip_with f u v) = f (coord d u) (coord d v).
Proof.
  unfold coord. revert v d.
  induction u as [|a u IH]; intros [|b v] [|d] Hu Hv; simpl in *; try lia.
  - reflexivity.
  - apply IH; lia.
Qed.

Lemma length_zip_with_same {A B C : Type} (f : A -> B -> C) (l : list A)
  (m : list B) (n : nat) :
  length l = n -> length m = n -> length (zip_with f l m) = n.
Proof.
  revert m n. induction l as [|a l IH]; intros [|b m] n Hl Hm; simpl in *;
    try congruence.
  destruct n as [|n]; [discriminate|]. f_equal. apply IH; lia.
Qed.

Lemma length_vzero (D : nat) : length (vzero D) = D.
Proof. apply repeat_length. Qed.

Lemma coord_vzero (D d : nat) : coord d (vzero D) = 0.
Proof.
  unfold coord, vzero. revert d.
  induction D as [|D IH]; intros [|d]; simpl; auto.
Qed.

Lemma length_vsum (D : nat) (l : list vec) :
  Forall (fun v => length v = D) l -> length (vsum D l) = D.
Proof.
  intro H. induction H as [|v l Hv _ IH]; simpl; [apply length_vzero|].
  apply length_zip_with_same; assumption.
Qed.

Lemma coord_vsum (D : nat) (l : list vec) (d : nat) :
  (d < D)%nat -> Forall (fun v => length v = D) l ->
  coord d (vsum D l) = Rsum (map (coord d) l).
Proof.
  intros Hd H. induction H as [|v l Hv Hl IH]; simpl; [apply coord_vzero|].
  unfold vadd. rewrite coord_zip_with.
  - rewrite IH. reflexivity.
  - lia.
  - rewrite (length_vsum D l Hl). exact Hd.
Qed.

Lemma entry_mscale (r : R) (m : mat) (a b : nat) :
  entry a b (mscale r m) = r * entry a b m.
Proof.
  unfold entry, mscale.
  destruct (Nat.lt_ge_cases a (length m)) as [Ha|Ha].
  - rewrite (nth_indep _ [] (vscale r []))
      by (rewrite length_map; exact Ha).
    rewrite map_nth. apply coord_vscale.
  - rewrite (nth_overflow (map (vscale r) m))
      by (rewrite length_map; exact Ha).
    rewrite (nth_overflow m) by exact Ha.
    destruct b; simpl; ring.
Qed.

Lemma entry_outer (u v : vec) (a b : nat) :
  entry a b (outer u v) = coord a u * coord b v.
Proof.
  unfold entry, outer, coord.
  destruct (Nat.lt_ge_cases a (length u)) as [Ha|Ha].
  - rewrite (nth_indep _ [] (map (fun vj => 0 * vj) v))
      by (rewrite length_map; exact Ha).
    rewrite (map_nth (fun ui => map (fun vj => ui * vj) v) u 0 a).
    rewrite <- (Rmult_0_r (nth a u 0)) at 1. apply map_nth.
  - rewrite (nth_overflow (map _ u)) by (rewrite length_map; exact Ha).
    rewrite (nth_overflow u) by exact Ha.
    destruct b; simpl; ring.
Qed.

Lemma square_mzero (D : nat) : square D (mzero D).
Proof.
  split; [apply repeat_length|].
  apply Forall_forall. intros row Hin. apply repeat_spec in Hin.
  subst row. apply length_vzero.
Qed.

Lemma entry_mzero (D a b : nat) : entry a b (mzero D) = 0.
Proof.
  unfold entry, mzero.
  destruct (Nat.lt_ge_cases a D) as [Ha|Ha].
  - rewrite nth_repeat_lt by exact Ha. apply coord_vzero.
  - rewrite (nth_overflow (repeat (vzero D) D))
      by (rewrite repeat_length; exact Ha).
    destruct b; reflexivity.
Qed.

Lemma square_madd (D : nat) (m1 m2 : mat) :
  square D m1 -> square D m2 -> square D (madd m1 m2).
Proof.
  intros [L1 R1] [L2 R2]. split.
  - apply length_zip_with_same; assumption.
  - unfold madd. clear L1 L2. revert m2 R2.
    induction R1 as [|r1 m1 Hr1 _ IH]; intros m2 R2; [constructor|].
    destruct R2 as [|r2 m2 Hr2 R2]; simpl; constructor.
    + apply length_zip_with_same; assumption.
    + apply IH. exact R2.
Qed.

Lemma entry_madd (D : nat) (m1 m2 : mat) (a b : nat) :
  (a < D)%nat -> (b < D)%nat -> square D m1 -> square D m2 ->
  entry a b (madd m1 m2) = entry a b m1 + entry a b m2.
Proof.
  intros Ha Hb [L1 R1] [L2 R2]. unfold entry, madd.
  assert (G : forall (l1 l2 : mat) (n : nat),
             (n < length l1)%nat -> (n < length l2)%nat ->
             nth n (zip_with vadd l1 l2) []
             = vadd (nth n l1 []) (nth n l2 [])).
  { induction l1 as [|x l1 IH]; intros [|y l2] [|n] H1 H2; simpl in *;
      try lia; [reflexivity|]. apply IH; lia. }
  rewrite G by lia.
  rewrite Forall_forall in R1, R2.
  apply (coord_zip_with Rplus).
  - rewrite (R1 (nth a m1 [])); [exact Hb|]. apply nth_In. lia.
  - rewrite (R2 (nth a m2 [])); [exact Hb|]. apply nth_In. lia.
Qed.

Lemma square_msum (D : nat) (l : list mat) :
  Forall (square D) l -> square D (msum D l).
Proof.
  intro H. induction H as [|m l Hm _ IH]; simpl; [apply square_mzero|].
  apply square_madd; assumption.
Qed.

Lemma entry_msum (D : nat) (l : list mat) (a b : nat) :
  (a < D)%nat -> (b < D)%nat -> Forall (square D) l ->
  entry a b (msum D l) = Rsum (map (entry a b) l).
Proof.
  intros Ha Hb H. induction H as [|m l Hm Hl IH]; simpl; [apply entry_mzero|].
  rewrite (entry_madd D) by (try assumption; apply square_msum; exact Hl).
  rewrite IH. reflexivity.
Qed.

Lemma square_mscale (D : nat) (r : R) (m : mat) :
  square D m -> square D (mscale r m).
Proof.
  intros [L Rw]. split; [unfold mscale; rewrite length_map; exact L|].
  unfold mscale. apply Forall_forall. intros row Hin.
  apply in_map_iff in Hin. destruct Hin as [row0 [<- Hin]].
  unfold vscale. rewrite length_map.
  rewrite Forall_forall in Rw. apply Rw, Hin.
Qed.

Lemma square_outer (D : nat) (u v : vec) :
  length u = D -> length v = D -> square D (outer u v).
Proof.
  intros Hu Hv. split; [unfold outer; rewrite length_map; exact Hu|].
  unfold outer. apply Forall_forall. intros row Hin.
  apply in_map_iff in Hin. destruct Hin as [ui [<- _]].
  rewrite length_map. exact Hv.
Qed.

Lemma zip_with_map_self {A B C : Type} (g : B -> A -> C) (f : A -> B)
  (l : list A) :
  zip_with g (map f l) l = map (fun x => g (f x) x) l.
Proof. induction l as [|a l IH]; simpl; [|rewrite IH]; reflexivity. Qed.

(** The weighted mean, coordinate by coordinate. *)
Lemma weighted_mean_coord (D : nat) (w : vec -> R) (samples : list vec)
  (d : nat) :
  Forall (fun x => length x = D) samples -> (d < D)%nat ->
  length (weighted_mean D w samples) = D /\
  coord d (weighted_mean D w samples)
  = Rsum (map (fun x => w x * coord d x) samples) / Rsum (map w samples).
Proof.
  intros Hs Hd. unfold weighted_mean. rewrite zip_with_map_self.
  assert (HF : Forall (fun v => length v = D)
                 (map (fun x => vscale (w x) x) samples)).
  { apply Forall_forall. intros v Hin. apply in_map_iff in Hin.
    destruct Hin as [x [<- Hin]]. unfold vscale. rewrite length_map.
    rewrite Forall_forall in Hs. apply Hs, Hin. }
  split.
  - unfold vscale at 1. rewrite length_map. apply length_vsum. exact HF.
  - rewrite coord_vscale, (coord_vsum D _ d Hd HF), map_map.
    rewrite (Rsum_map_ext_in (fun x => coord d (vscale (w x) x))
               (fun x => w x * coord d x))
      by (intros x _; apply coord_vscale).
    unfold Rdiv. ring.
Qed.

(** The weighted covariance about [mu], entry by entry. *)
Lemma weighted_covariance_entry (D : nat) (w : vec -> R)
  (samples : list vec) (mu : vec) (a b : nat) :
  Forall (fun x => length x = D) samples -> length mu = D ->
  (a < D)%nat -> (b < D)%nat ->
  entry a b (weighted_covariance D w samples mu)
  = Rsum (map (fun x => w x * ((coord a x - coord a mu)
                               * (coord b x - coord b mu))) samples)
    / Rsum (map w samples).
Proof.
  intros Hs Hmu Ha Hb. unfold weighted_covariance.
  rewrite (zip_with_map_self
             (fun wi x => mscale wi (outer (vsub mu x) (vsub mu x)))).
  rewrite Forall_forall in Hs.
  assert (HF : Forall (square D)
                 (map (fun x => mscale (w x)
                                  (outer (vsub mu x) (vsub mu x))) samples)).
  { apply Forall_forall. intros m Hin. apply in_map_iff in Hin.
    destruct Hin as [x [<- Hin]]. apply square_mscale, square_outer;
      unfold vsub; apply length_zip_with_same; auto. }
  rewrite entry_mscale, (entry_msum D _ a b Ha Hb HF), map_map.
  rewrite (Rsum_map_ext_in
             (fun x => entry a b (mscale (w x)
                                    (outer (vsub mu x) (vsub mu x))))
             (fun x => w x * ((coord a x - coord a mu)
                              * (coord b x - coord b mu)))).
  - unfold Rdiv. ring.
  - intros x Hx. rewrite entry_mscale, entry_outer. unfold vsub.
    rewrite !coord_zip_with by (rewrite ?Hmu, ?(Hs x Hx); assumption).
    ring.
Qed.

(** *** One EM iteration against the update equations *)

Lemma e_step_entry_eq (theta : Mixture) (samples : list vec) (i k : nat)
  (x : vec) (c : Component) :
  nth_error samples i = Some x ->
  nth_error (components theta) k = Some c ->
  entry i k (e_step pdf theta samples) = responsibility pdf theta x c.
Proof.
  intros Hx Hc. destruct (e_step_entry theta samples i k x c Hx Hc)
    as [row [Hrow Hq]].
  unfold entry. rewrite (nth_error_nth _ _ [] Hrow).
  apply nth_error_nth. exact Hq.
Qed.

(** The component after the step, in terms of the weighted moments. *)
Lemma updated_moments (frozen : Frozen) (samples : list vec)
  (theta : Mixture) (k : nat) (c : Component) :
  nth_error (components theta) k = Some c ->
  let w := fun x => responsibility pdf theta x c in
  let c' := updated pdf regularize frozen samples theta k c in
  mean c' = (if is_frozen k (frozen_mean frozen) then mean c
             else weighted_mean (length (mean c)) w samples) /\
  covar c' = (if is_frozen k (frozen_covar frozen) then covar c
              else regularize (weighted_covariance (length (mean c)) w
                                 samples (mean c'))).
Proof.
  intros Hc w c'. unfold c', updated, m_step_component.
  rewrite (column_e_step theta samples k c Hc). cbn [mean covar].
  split; reflexivity.
Qed.

Lemma updated_mean_length (frozen : Frozen) (samples : list vec)
  (theta : Mixture) (k : nat) (c : Component) :
  nth_error (components theta) k = Some c ->
  Forall (fun x => length x = length (mean c)) samples ->
  length (mean (updated pdf regularize frozen samples theta k c))
  = length (mean c).
Proof.
  intros Hc Hs.
  destruct (updated_moments frozen samples theta k c Hc) as [Hm _].
  rewrite Hm. destruct (is_frozen k (frozen_mean frozen)); [reflexivity|].
  unfold weighted_mean, vscale. rewrite length_map, zip_with_map_self.
  apply length_vsum. apply Forall_forall. intros v Hin.
  apply in_map_iff in Hin. destruct Hin as [x [<- Hin]].
  unfold vscale. rewrite length_map.
  rewrite Forall_forall in Hs. apply Hs, Hin.
Qed.


(** *** Frozen parameters *)

Lemma updated_mean_frozen (frozen : Frozen) (samples : list vec)
  (theta : Mixture) (k : nat) (c : Component) :
  is_frozen k (frozen_mean frozen) = true ->
  mean (updated pdf regularize frozen samples theta k c) = mean c.
Proof.
  intro H. unfold updated, m_step_component. cbn [mean]. rewrite H.
  reflexivity.
Qed.

Lemma updated_covar_frozen (frozen : Frozen) (samples : list vec)
  (theta : Mixture) (k : nat) (c : Component) :
  is_frozen k (frozen_covar frozen) = true ->
  covar (updated pdf regularize frozen samples theta k c) = covar c.
Proof.
  intro H. unfold updated, m_step_component. cbn [covar]. rewrite H.
  reflexivity.
Qed.

(** The component [k] of every iterate, with its frozen parameters in
    place. *)
Lemma em_iter_frozen (frozen : Frozen) (samples : list vec)
  (theta0 : Mixture) (n k : nat) (c0 : Component) :
  nth_error (components theta0) k = Some c0 ->
  exists c,
    nth_error (components (em_iter pdf regularize frozen samples n theta0)) k
    = Some c /\
    (is_frozen k (frozen_mean frozen) = true -> mean c = mean c0) /\
    (is_frozen k (frozen_covar frozen) = true -> covar c = covar c0).
Proof.
  intro Hc0. induction n as [|n IH].
  - exists c0. simpl. auto.
  - destruct IH as [c [Hk [Hm Hv]]].
    exists (updated pdf regularize frozen samples
              (em_iter pdf regularize frozen samples n theta0) k c).
    split; [simpl; apply em_step_nth_error; exact Hk|].
    split; intro Hf.
    + rewrite updated_mean_frozen by exact Hf. auto.
    + rewrite updated_covar_frozen by exact Hf. auto.
Qed.

(** C4.  A mean or covariance marked frozen keeps the value it had when the
    fit began through every EM iteration, and the E-step of every iteration
    computes the responsibilities of its component from that value, for
    each frozen parameter on its own; a mean or covariance that is not
    frozen is set by the next M-step to the weighted mean or the
    regularized weighted covariance of the samples, whatever it was. *)
Theorem frozen_parameters_unchanged (frozen : Frozen) (samples : list vec)
  (theta0 : Mixture) (n k : nat) (c0 : Component) :
  nth_error (components theta0) k = Some c0 ->
  let theta := em_iter pdf regularize frozen samples n theta0 in
  exists c,
    nth_error (components theta) k = Some c /\
    (is_frozen k (frozen_mean frozen) = true -> mean c = mean c0) /\
    (is_frozen k (frozen_covar frozen) = true -> covar c = covar c0) /\
    (forall i x, nth_error samples i = Some x ->
       denominator pdf theta x <> 0 ->
       entry i k (e_step pdf theta samples)
       = amp c
         * pdf (if is_frozen k (frozen_mean frozen) then mean c0 else mean c)
               (if is_frozen k (frozen_covar frozen) then covar c0
                else covar c) x
         / denominator pdf theta x) /\
    exists c',
      nth_error (components (em_step pdf regularize frozen samples theta)) k
      = Some c' /\
      let w := fun x => responsibility pdf theta x c in
      (is_frozen k (frozen_mean frozen) = false ->
       mean c' = weighted_mean (length (mean c)) w samples) /\
      (is_frozen k (frozen_covar frozen) = false ->
       covar c' = regularize (weighted_covariance (length (mean c)) w
                                samples (mean c'))).
Proof.
  intros Hc0 theta.
  destruct (em_iter_frozen frozen samples theta0 n k c0 Hc0)
    as [c [Hk [Hm Hv]]].
  fold theta in Hk.
  exists c. split; [exact Hk|]. split; [exact Hm|]. split; [exact Hv|].
  split.
  - intros i x Hx Hden.
    rewrite (e_step_entry_eq theta samples i k x c Hx Hk).
    rewrite (responsibility_share theta x c Hden). unfold weighted_density.
    destruct (is_frozen k (frozen_mean frozen)) eqn:Em;
      destruct (is_frozen k (frozen_covar frozen)) eqn:Ev;
      rewrite ?(Hm eq_refl), ?(Hv eq_refl); reflexivity.
  - exists (updated pdf regularize frozen samples theta k c).
    split; [apply em_step_nth_error; exact Hk|].
    destruct (updated_moments frozen samples theta k c Hk) as [Hm' Hv'].
    cbv zeta. split; intro Hf.
    + rewrite Hf in Hm'. exact Hm'.
    + rewrite Hf in Hv'. exact Hv'.
Qed.

(** *** The mixture density as a sum over terms *)

Lemma Rsum_app (l m : list R) : Rsum (l ++ m) = Rsum l + Rsum m.
Proof. induction l as [|a l IH]; simpl; [|rewrite IH]; ring. Qed.

Lemma denominator_terms (theta : Mixture) (x : vec) :
  denominator pdf theta x =
  mixture_density (term_amp theta) (term_density pdf theta) (terms theta) x.
Proof.
  unfold denominator, mixture_density, terms, background_term.
  rewrite map_app, Rsum_app, map_map. f_equal.
  - rewrite (map_snd_combine_seq
               (fun c => amp c * pdf (mean c) (covar c) x)).
    reflexivity.
  - unfold term_amp, term_density.
    destruct (background theta) as [b|]; simpl; ring.
Qed.

Lemma responsibility_terms (theta : Mixture) (x : vec) (k : nat)
  (c : Component) :
  denominator pdf theta x <> 0 ->
  responsibility pdf theta x c =
  mixture_resp (term_amp theta) (term_density pdf theta) (terms theta) x
    (Some (k, c)).
Proof.
  intro H. rewrite (responsibility_share theta x c H).
  unfold mixture_resp. rewrite <- denominator_terms. reflexivity.
Qed.

Lemma total_amplitude_terms (theta : Mixture) :
  total_amplitude theta = Rsum (map (term_amp theta) (terms theta)).
Proof.
  unfold total_amplitude, terms.
  rewrite map_app, Rsum_app, map_map. f_equal.
  - rewrite (map_snd_combine_seq amp). reflexivity.
  - unfold term_amp.
    destruct (background theta) as [b|]; simpl; ring.
Qed.

Lemma updated_amp_terms (frozen : Frozen) (samples : list vec)
  (theta : Mixture) (k : nat) (c : Component) :
  (forall y, In y samples -> denominator pdf theta y <> 0) ->
  nth_error (components theta) k = Some c ->
  amp (updated pdf regularize frozen samples theta k c) =
  mean_resp (term_amp theta) (term_density pdf theta) (terms theta) samples
    (Some (k, c)).
Proof.
  intros Hden H. rewrite (updated_amp frozen samples theta k c H).
  unfold mean_resp. f_equal. apply Rsum_map_ext_in. intros x Hx.
  apply responsibility_terms. apply Hden, Hx.
Qed.

(** The mixture density after the step, over the terms of the old state. *)
Lemma denominator_em_step (frozen : Frozen) (samples : list vec)
  (theta : Mixture) (x : vec) :
  samples <> [] ->
  (forall y, In y samples -> denominator pdf theta y <> 0) ->
  denominator pdf (em_step pdf regularize frozen samples theta) x =
  mixture_density
    (mean_resp (term_amp theta) (term_density pdf theta) (terms theta) samples)
    (term_density_updated pdf regularize frozen samples theta) (terms theta) x.
Proof.
  intros Hne Hden.
  set (a' := mean_resp (term_amp theta) (term_density pdf theta)
               (terms theta) samples).
  assert (Hamp : forall kc,
             In kc (combine (seq 0 (length (components theta)))
                      (components theta)) ->
             amp (updated pdf regularize frozen samples theta (fst kc) (snd kc))
             = a' (Some kc)).
  { intros [k c] Hin. cbn [fst snd].
    apply in_combine_seq in Hin. destruct Hin as [_ Hin].
    rewrite Nat.sub_0_r in Hin. apply updated_amp_terms; assumption. }
  unfold denominator, mixture_density, terms.
  rewrite map_app, Rsum_app, map_map. f_equal.
  - rewrite em_step_components, map_map.
    apply Rsum_map_ext_in. intros kc Hin.
    unfold weighted_density. rewrite (Hamp kc Hin). reflexivity.
  - unfold background_term. rewrite em_step_background.
    destruct (background theta) as [b|] eqn:Hb; [|reflexivity].
    cbn [bg_amp bg_density map Rsum fold_right term_density_updated].
    rewrite Hb, Rplus_0_r. f_equal.
    assert (Hsum : Rsum (map a' (terms theta)) = 1).
    { unfold a', mean_resp. rewrite Rsum_map_div.
      rewrite <- (Rsum_exchange
                    (fun y t => mixture_resp (term_amp theta)
                                  (term_density pdf theta) (terms theta) y t)).
      rewrite (Rsum_map_ext_in _ (fun _ => 1)).
      - rewrite Rsum_map_const. pose proof (INR_length_pos samples Hne).
        field. lra.
      - intros y Hy. unfold mixture_resp. rewrite Rsum_map_div.
        fold (mixture_density (term_amp theta) (term_density pdf theta)
                (terms theta) y).
        rewrite <- denominator_terms. specialize (Hden y Hy). field.
        exact Hden. }
    unfold terms in Hsum. rewrite Hb, map_app, Rsum_app, map_map in Hsum.
    cbn [map Rsum fold_right] in Hsum.
    rewrite em_step_components, map_map.
    rewrite (Rsum_map_ext_in _ (fun kc => a' (Some kc))) by exact Hamp.
    lra.
Qed.

End Steps.

(** *** Logarithms *)

Lemma ln_le_minus_1 (u : R) : 0 < u -> ln u <= u - 1.
Proof.
  intro H. pose proof (exp_ineq1_le (ln u)) as E.
  rewrite exp_ln in E by exact H. lra.
Qed.

Lemma ln_div (x y : R) : 0 < x -> 0 < y -> ln (x / y) = ln x - ln y.
Proof.
  intros Hx Hy. unfold Rdiv.
  rewrite ln_mult by (try apply Rinv_0_lt_compat; assumption).
  rewrite ln_Rinv by exact Hy. ring.
Qed.

Lemma Rsum_pos_exists {A : Type} (f : A -> R) (l : list A) :
  0 < Rsum (map f l) -> exists a, In a l /\ 0 < f a.
Proof.
  induction l as [|a l IH]; simpl; intro H; [lra|].
  destruct (Rlt_dec 0 (f a)) as [Ha|Ha].
  - exists a. split; [left; reflexivity|exact Ha].
  - destruct IH as [b [Hb Hfb]]; [lra|].
    exists b. split; [right; exact Hb|exact Hfb].
Qed.

(** *** An EM step does not decrease the log-likelihood: the general
    argument *)

Section Gem.
Context {X C : Type}.
Variables (xs : list X) (cs : list C) (a : C -> R) (P P' : C -> X -> R).

Hypothesis xs_nonempty : xs <> [].
Hypothesis a_nonneg : forall c, In c cs -> 0 <= a c.
Hypothesis P_nonneg : forall c x, In c cs -> In x xs -> 0 <= P c x.
Hypothesis P'_nonneg : forall c x, In c cs -> In x xs -> 0 <= P' c x.
Hypothesis S_pos : forall x, In x xs -> 0 < mixture_density a P cs x.
Hypothesis P'_pos : forall c x, In c cs -> In x xs ->
  0 < a c * P c x -> 0 < P' c x.

Local Abbreviation S := (mixture_density a P cs).
Local Abbreviation q := (mixture_resp a P cs).
Local Abbreviation a' := (mean_resp a P cs xs).
Local Abbreviation S' := (mixture_density (mean_resp a P cs xs) P' cs).

Lemma gem_N_pos : 0 < INR (length xs).
Proof. apply INR_length_pos. exact xs_nonempty. Qed.

Lemma gem_q_nonneg c x : In c cs -> In x xs -> 0 <= q x c.
Proof.
  intros Hc Hx. unfold mixture_resp.
  apply Rmult_le_pos; [apply Rmult_le_pos; auto|].
  apply Rlt_le, Rinv_0_lt_compat, S_pos, Hx.
Qed.

Lemma gem_q_pos c x : In c cs -> In x xs -> 0 < q x c -> 0 < a c * P c x.
Proof.
  intros Hc Hx Hq. unfold mixture_resp in Hq.
  pose proof (S_pos x Hx) as HS.
  assert (E : a c * P c x = a c * P c x / S x * S x) by (field; lra).
  rewrite E. apply Rmult_lt_0_compat; assumption.
Qed.

Lemma gem_factors_pos c x :
  In c cs -> In x xs -> 0 < a c * P c x -> 0 < a c /\ 0 < P c x.
Proof.
  intros Hc Hx H. pose proof (a_nonneg c Hc). pose proof (P_nonneg c x Hc Hx).
  split.
  - destruct (Rle_lt_or_eq_dec _ _ H0) as [|E]; [assumption|].
    rewrite <- E in H. lra.
  - destruct (Rle_lt_or_eq_dec _ _ H1) as [|E]; [assumption|].
    rewrite <- E in H. lra.
Qed.

Lemma gem_row_sum x : In x xs -> Rsum (map (q x) cs) = 1.
Proof.
  intro Hx. unfold mixture_resp. rewrite Rsum_map_div.
  fold (mixture_density a P cs x). pose proof (S_pos x Hx). field. lra.
Qed.

Lemma gem_a'_nonneg c : In c cs -> 0 <= a' c.
Proof.
  intro Hc. unfold mean_resp.
  apply Rmult_le_pos; [|apply Rlt_le, Rinv_0_lt_compat, gem_N_pos].
  apply Rsum_map_nonneg. intros x Hx. apply gem_q_nonneg; assumption.
Qed.

Lemma gem_a'_pos c x : In c cs -> In x xs -> 0 < q x c -> 0 < a' c.
Proof.
  intros Hc Hx Hq. unfold mean_resp.
  apply Rmult_lt_0_compat; [|apply Rinv_0_lt_compat, gem_N_pos].
  apply (Rsum_map_pos_one _ xs x Hx Hq).
  intros y Hy. apply gem_q_nonneg; assumption.
Qed.

Lemma gem_a'_sum : Rsum (map a' cs) = 1.
Proof.
  unfold mean_resp. rewrite Rsum_map_div.
  rewrite <- (Rsum_exchange (fun x c => q x c)).
  rewrite (Rsum_map_ext_in _ (fun _ => 1)) by (intros; apply gem_row_sum; assumption).
  rewrite Rsum_map_const. pose proof gem_N_pos. field. lra.
Qed.

Lemma gem_S'_pos x : In x xs -> 0 < S' x.
Proof.
  intro Hx. destruct (Rsum_pos_exists _ _ (S_pos x Hx)) as [c [Hc Hpos]].
  unfold mixture_density.
  apply (Rsum_map_pos_one _ cs c Hc).
  - apply Rmult_lt_0_compat.
    + apply (gem_a'_pos c x Hc Hx). unfold mixture_resp.
      apply Rmult_lt_0_compat; [exact Hpos|].
      apply Rinv_0_lt_compat, S_pos, Hx.
    + apply P'_pos; assumption.
  - intros d Hd. apply Rmult_le_pos; [apply gem_a'_nonneg|apply P'_nonneg]; assumption.
Qed.

Lemma gem_S'_row_sum x :
  In x xs -> Rsum (map (fun c => a' c * P' c x / S' x) cs) = 1.
Proof.
  intro Hx. rewrite Rsum_map_div. fold (S' x).
  pose proof (gem_S'_pos x Hx). field. lra.
Qed.

(** The term of one sample and one component. *)
Lemma gem_term c x :
  In c cs -> In x xs ->
  q x c * (ln (a' c) - ln (a c) + (ln (P' c x) - ln (P c x)))
  <= q x c * (ln (S' x) - ln (S x)) + (a' c * P' c x / S' x - q x c).
Proof.
  intros Hc Hx.
  pose proof (S_pos x Hx) as HS. pose proof (gem_S'_pos x Hx) as HS'.
  destruct (gem_q_nonneg c x Hc Hx) as [Hq|Hq].
  - pose proof (gem_q_pos c x Hc Hx Hq) as Hw.
    destruct (gem_factors_pos c x Hc Hx Hw) as [Ha HP].
    pose proof (gem_a'_pos c x Hc Hx Hq) as Ha'.
    pose proof (P'_pos c x Hc Hx Hw) as HP'.
    set (u := a' c * P' c x / S' x / q x c).
    assert (Hu : 0 < u).
    { unfold u. apply Rdiv_lt_0_compat; [|exact Hq].
      apply Rdiv_lt_0_compat; [|exact HS'].
      apply Rmult_lt_0_compat; assumption. }
    assert (Hln : ln u = ln (a' c) - ln (a c) + (ln (P' c x) - ln (P c x))
                         - (ln (S' x) - ln (S x))).
    { assert (Hw' : 0 < a' c * P' c x) by (apply Rmult_lt_0_compat; assumption).
      assert (Hr : 0 < a' c * P' c x / S' x)
        by (apply Rdiv_lt_0_compat; assumption).
      unfold u.
      rewrite (ln_div _ (q x c) Hr Hq).
      rewrite (ln_div _ (S' x) Hw' HS').
      rewrite (ln_mult (a' c) _ Ha' HP').
      unfold mixture_resp.
      rewrite (ln_div _ (S x) Hw HS).
      rewrite (ln_mult (a c) _ Ha HP).
      ring. }
    pose proof (ln_le_minus_1 u Hu) as Hle.
    assert (Hqu : q x c * u = a' c * P' c x / S' x)
      by (unfold u; field; lra).
    assert (Hm : q x c * ln u <= q x c * (u - 1))
      by (apply Rmult_le_compat_l; lra).
    rewrite Hln in Hm.
    replace (q x c * (u - 1)) with (a' c * P' c x / S' x - q x c) in Hm
      by (rewrite <- Hqu; ring).
    lra.
  - rewrite <- Hq.
    assert (0 <= a' c * P' c x / S' x).
    { apply Rmult_le_pos; [|apply Rlt_le, Rinv_0_lt_compat, HS'].
      apply Rmult_le_pos; [apply gem_a'_nonneg|apply P'_nonneg]; assumption. }
    lra.
Qed.

(** Summed over the components, for one sample. *)
Lemma gem_sample x :
  In x xs ->
  Rsum (map (fun c => q x c * (ln (a' c) - ln (a c)
                               + (ln (P' c x) - ln (P c x)))) cs)
  <= ln (S' x) - ln (S x).
Proof.
  intro Hx.
  apply Rle_trans with
    (Rsum (map (fun c => q x c * (ln (S' x) - ln (S x))
                         + (a' c * P' c x / S' x - q x c)) cs)).
  - apply Rsum_map_le. intros c Hc. apply gem_term; assumption.
  - rewrite Rsum_map_plus, Rsum_map_minus, Rsum_map_scal_r.
    rewrite (gem_row_sum x Hx), (gem_S'_row_sum x Hx). lra.
Qed.

Hypothesis a_sum : Rsum (map a cs) <= 1.
Hypothesis improvement : forall c, In c cs ->
  Rsum (map (fun x => q x c * ln (P c x)) xs)
  <= Rsum (map (fun x => q x c * ln (P' c x)) xs).

Lemma gem_a'_N c : Rsum (map (fun x => q x c) xs) = INR (length xs) * a' c.
Proof. unfold mean_resp. pose proof gem_N_pos. field. lra. Qed.

(** The new amplitudes are the best ones for the responsibilities. *)
Lemma gem_gibbs c : In c cs -> a' c - a c <= a' c * (ln (a' c) - ln (a c)).
Proof.
  intro Hc. destruct (gem_a'_nonneg c Hc) as [Hpos|Hz].
  - assert (Hs : 0 < Rsum (map (fun x => q x c) xs)).
    { rewrite gem_a'_N. apply Rmult_lt_0_compat; [apply gem_N_pos|exact Hpos]. }
    destruct (Rsum_pos_exists _ _ Hs) as [x [Hx Hq]].
    destruct (gem_factors_pos c x Hc Hx (gem_q_pos c x Hc Hx Hq)) as [Ha _].
    assert (Hr : 0 < a c / a' c) by (apply Rdiv_lt_0_compat; assumption).
    pose proof (ln_le_minus_1 _ Hr) as Hle.
    rewrite (ln_div _ _ Ha Hpos) in Hle.
    assert (Hm : a' c * (ln (a c) - ln (a' c)) <= a' c * (a c / a' c - 1))
      by (apply Rmult_le_compat_l; lra).
    replace (a' c * (a c / a' c - 1)) with (a c - a' c) in Hm
      by (field; lra).
    lra.
  - rewrite <- Hz. pose proof (a_nonneg c Hc). lra.
Qed.

(** Summed over the samples, for one component. *)
Lemma gem_component c :
  In c cs ->
  INR (length xs) * (a' c - a c)
  <= Rsum (map (fun x => q x c * (ln (a' c) - ln (a c)
                                  + (ln (P' c x) - ln (P c x)))) xs).
Proof.
  intro Hc.
  rewrite (Rsum_map_ext_in _
             (fun x => q x c * (ln (a' c) - ln (a c))
                       + (q x c * ln (P' c x) - q x c * ln (P c x))))
    by (intros; ring).
  rewrite Rsum_map_plus, Rsum_map_minus, Rsum_map_scal_r, gem_a'_N.
  pose proof (improvement c Hc) as Himp.
  pose proof (gem_gibbs c Hc) as Hg.
  pose proof gem_N_pos as HN.
  assert (INR (length xs) * (a' c - a c)
          <= INR (length xs) * (a' c * (ln (a' c) - ln (a c))))
    by (apply Rmult_le_compat_l; lra).
  lra.
Qed.

(** An EM step whose new densities are at least as good as the old ones for
    the responsibilities does not decrease the log-likelihood. *)
Theorem gem_increase :
  Rsum (map (fun x => ln (S x)) xs) <= Rsum (map (fun x => ln (S' x)) xs).
Proof.
  pose proof gem_N_pos as HN.
  assert (H1 : 0 <= Rsum (map (fun c => INR (length xs) * (a' c - a c)) cs)).
  { rewrite Rsum_map_scal_l, Rsum_map_minus, gem_a'_sum.
    apply Rmult_le_pos; lra. }
  assert (H2 : Rsum (map (fun c => INR (length xs) * (a' c - a c)) cs)
               <= Rsum (map (fun c => Rsum (map (fun x =>
                    q x c * (ln (a' c) - ln (a c)
                             + (ln (P' c x) - ln (P c x)))) xs)) cs)).
  { apply Rsum_map_le. intros c Hc. apply gem_component. exact Hc. }
  rewrite <- (Rsum_exchange
                (fun x c => q x c * (ln (a' c) - ln (a c)
                                     + (ln (P' c x) - ln (P c x))))) in H2.
  assert (H3 : Rsum (map (fun x => Rsum (map (fun c =>
                    q x c * (ln (a' c) - ln (a c)
                             + (ln (P' c x) - ln (P c x)))) cs)) xs)
               <= Rsum (map (fun x => ln (S' x) - ln (S x)) xs)).
  { apply Rsum_map_le. intros x Hx. apply gem_sample. exact Hx. }
  rewrite Rsum_map_minus in H3. lra.
Qed.

End Gem.

(** *** Monotonicity of the log-likelihood

    The density and the regularization are primitives of the fit.  What
    the argument needs of them is what holds of a Gaussian density whose
    covariance is kept at or above a floor: the density is positive at
    every valid covariance; the regularization yields admissible
    covariances, which are valid; and the weighted mean of the samples,
    at any valid covariance, and their regularized weighted covariance,
    against any admissible one, are at least as good for the weighted
    log-density as the parameters they replace. *)

Section Monotone.
Variable pdf : vec -> mat -> vec -> R.
Variable regularize : mat -> mat.
Variable D : nat.
Variables valid admissible : mat -> Prop.

Hypothesis pdf_nonneg : forall mu sigma x, 0 <= pdf mu sigma x.
Hypothesis pdf_pos :
  forall mu sigma x, valid sigma -> 0 < pdf mu sigma x.
Hypothesis admissible_valid : forall sigma, admissible sigma -> valid sigma.
Hypothesis regularize_admissible : forall sigma, admissible (regularize sigma).
Hypothesis mean_step :
  forall (xs : list vec) (w : vec -> R) (mu : vec) (sigma : mat),
    Forall (fun x => length x = D) xs -> length mu = D ->
    valid sigma ->
    (forall x, In x xs -> 0 <= w x) -> 0 < Rsum (map w xs) ->
    Rsum (map (fun x => w x * ln (pdf mu sigma x)) xs)
    <= Rsum (map (fun x => w x * ln (pdf (weighted_mean D w xs) sigma x)) xs).
Hypothesis covar_step :
  forall (xs : list vec) (w : vec -> R) (mu : vec) (sigma : mat),
    Forall (fun x => length x = D) xs -> length mu = D ->
    admissible sigma ->
    (forall x, In x xs -> 0 <= w x) -> 0 < Rsum (map w xs) ->
    Rsum (map (fun x => w x * ln (pdf mu sigma x)) xs)
    <= Rsum (map (fun x =>
                    w x * ln (pdf mu (regularize
                                        (weighted_covariance D w xs mu)) x))
                 xs).

Variables (frozen : Frozen) (samples : list vec).
Hypothesis samples_nonempty : samples <> [].
Hypothesis samples_shaped : shaped_samples D samples.

Local Abbreviation proper := (EM.proper pdf D valid frozen samples).
Local Abbreviation regular := (EM.regular admissible frozen).
Local Abbreviation step := (em_step pdf regularize frozen samples).

Lemma proper_has_term theta :
  proper theta -> components theta <> [] \/ background theta <> None.
Proof.
  intros (_ & _ & _ & _ & Hden).
  destruct samples as [|x xs] eqn:E; [congruence|].
  specialize (Hden x (or_introl eq_refl)).
  destruct (components theta) as [|c cs] eqn:Hc; [|left; discriminate].
  right. intro Hb. unfold denominator, background_term in Hden.
  rewrite Hc, Hb in Hden. simpl in Hden. lra.
Qed.

Lemma proper_responsibility_nonneg theta c x :
  proper theta -> In c (components theta) -> In x samples ->
  0 <= responsibility pdf theta x c.
Proof.
  intros (Ha & Hb & _) Hc Hx.
  apply (responsibility_nonneg pdf theta samples); assumption.
Qed.

Lemma in_terms_some theta k c :
  In (Some (k, c)) (terms theta) -> nth_error (components theta) k = Some c.
Proof.
  unfold terms. intro H. apply in_app_or in H. destruct H as [H|H].
  - apply in_map_iff in H. destruct H as [[k' c'] [E H]].
    injection E as -> ->. apply in_combine_seq in H.
    destruct H as [_ H]. rewrite Nat.sub_0_r in H. exact H.
  - destruct (background theta); simpl in H; [|contradiction].
    destruct H as [H|H]; [discriminate|contradiction].
Qed.

(** After a step every covariance that is not frozen has been
    regularized. *)
Lemma step_regular theta : regular (step theta).
Proof.
  intros k c' Hk' Hf.
  destruct (nth_error (components theta) k) as [c|] eqn:Hk.
  - rewrite (em_step_nth_error pdf regularize frozen samples theta k c Hk)
      in Hk'.
    injection Hk' as <-.
    destruct (updated_moments pdf regularize frozen samples theta k c Hk)
      as [_ Hv].
    rewrite Hv, Hf. apply regularize_admissible.
  - exfalso. apply nth_error_None in Hk.
    assert (H : nth_error (components (step theta)) k <> None)
      by congruence.
    apply nth_error_Some in H. rewrite em_step_length in H. lia.
Qed.

(** The covariances of a proper state with admissible free covariances
    are valid. *)
Lemma covar_valid theta k c :
  proper theta -> regular theta ->
  nth_error (components theta) k = Some c -> valid (covar c).
Proof.
  intros (_ & _ & _ & Hfz & _) Hr Hk.
  destruct (is_frozen k (frozen_covar frozen)) eqn:E.
  - apply (Hfz k c Hk E).
  - apply admissible_valid, (Hr k c Hk E).
Qed.

(** A step keeps the frozen covariances, which stay valid. *)
Lemma step_frozen_valid theta k c' :
  proper theta ->
  nth_error (components (step theta)) k = Some c' ->
  is_frozen k (frozen_covar frozen) = true -> valid (covar c').
Proof.
  intros (_ & _ & _ & Hfz & _) Hk' Hf.
  destruct (nth_error (components theta) k) as [c|] eqn:Hk.
  - rewrite (em_step_nth_error pdf regularize frozen samples theta k c Hk)
      in Hk'.
    injection Hk' as <-. rewrite updated_covar_frozen by exact Hf.
    apply (Hfz k c Hk Hf).
  - exfalso. apply nth_error_None in Hk.
    assert (H : nth_error (components (step theta)) k <> None)
      by congruence.
    apply nth_error_Some in H. rewrite em_step_length in H. lia.
Qed.

Lemma step_covar_valid theta k c' :
  proper theta ->
  nth_error (components (step theta)) k = Some c' -> valid (covar c').
Proof.
  intros Hp Hk'.
  destruct (is_frozen k (frozen_covar frozen)) eqn:E.
  - apply (step_frozen_valid theta k c' Hp Hk' E).
  - apply admissible_valid, (step_regular theta k c' Hk' E).
Qed.

Lemma term_amp_nonneg theta t :
  proper theta -> In t (terms theta) -> 0 <= term_amp theta t.
Proof.
  intros ([Ha Hb] & _) Ht. destruct t as [[k c]|]; unfold term_amp.
  - cbn [snd]. apply in_terms_some, nth_error_In in Ht.
    rewrite Forall_forall in Ha. apply Ha, Ht.
  - destruct (background theta) as [b|]; [|lra]. apply (Hb b eq_refl).
Qed.

Lemma term_density_nonneg theta t x :
  proper theta -> In x samples -> 0 <= term_density pdf theta t x.
Proof.
  intros (_ & Hb & _) Hx. destruct t as [[k c]|]; unfold term_density.
  - apply pdf_nonneg.
  - destruct (background theta) as [b|] eqn:E; [|lra]. apply (Hb b E), Hx.
Qed.

Lemma term_density_updated_nonneg theta t x :
  proper theta -> In x samples ->
  0 <= term_density_updated pdf regularize frozen samples theta t x.
Proof.
  intros (_ & Hb & _) Hx. destruct t as [[k c]|];
    unfold term_density_updated.
  - apply pdf_nonneg.
  - destruct (background theta) as [b|] eqn:E; [|lra]. apply (Hb b E), Hx.
Qed.

Lemma term_density_updated_pos theta t x :
  proper theta -> In t (terms theta) -> In x samples ->
  0 < term_amp theta t * term_density pdf theta t x ->
  0 < term_density_updated pdf regularize frozen samples theta t x.
Proof.
  intros Hp Ht Hx Hpos. destruct t as [[k c]|].
  - apply in_terms_some in Ht.
    unfold term_density_updated. cbn [fst snd]. apply pdf_pos.
    apply (step_covar_valid theta k _ Hp).
    apply em_step_nth_error. exact Ht.
  - pose proof (term_amp_nonneg theta None Hp Ht) as Ha.
    pose proof (term_density_nonneg theta None x Hp Hx) as Hd.
    change (term_density_updated pdf regularize frozen samples theta None x)
      with (term_density pdf theta None x).
    destruct Hd as [Hd|Hd]; [exact Hd|]. rewrite <- Hd in Hpos. lra.
Qed.

Lemma proper_denominator_nonzero theta :
  proper theta -> forall y, In y samples -> denominator pdf theta y <> 0.
Proof.
  intros (_ & _ & _ & _ & Hden) y Hy. apply Rgt_not_eq, Hden, Hy.
Qed.

(** A step keeps the state proper. *)
Lemma step_proper theta : proper theta -> proper (step theta).
Proof.
  intro Hp. pose proof Hp as (Ha & Hb & Hlen & Hfz & Hden).
  pose proof (proper_has_term theta Hp) as Hterm.
  split; [|split; [|split; [|split]]].
  - apply em_step_amplitudes_nonneg; assumption.
  - apply em_step_background_nonneg. exact Hb.
  - intros c' Hin. rewrite em_step_components in Hin.
    apply in_map_iff in Hin. destruct Hin as [[k c] [<- Hin]].
    cbn [fst snd]. apply in_combine_seq in Hin. destruct Hin as [_ Hk].
    rewrite Nat.sub_0_r in Hk.
    pose proof (Hlen c (nth_error_In _ _ Hk)) as Hc.
    rewrite updated_mean_length; [exact Hc|exact Hk|].
    rewrite Hc. exact samples_shaped.
  - intros k c' Hk' Hf. apply (step_frozen_valid theta k c' Hp Hk' Hf).
  - intros x Hx.
    rewrite (denominator_em_step pdf regularize frozen samples theta x
               samples_nonempty (proper_denominator_nonzero theta Hp)).
    apply (gem_S'_pos samples (terms theta) (term_amp theta)
             (term_density pdf theta)).
    + exact samples_nonempty.
    + intros t Ht. apply term_amp_nonneg; assumption.
    + intros t y _ Hy. apply term_density_nonneg; assumption.
    + intros t y _ Hy. apply term_density_updated_nonneg; assumption.
    + intros y Hy. rewrite <- denominator_terms. apply Hden, Hy.
    + intros t y Ht Hy. apply term_density_updated_pos; assumption.
    + exact Hx.
Qed.

(** A nonnegative sum that vanishes has only vanishing terms. *)
Lemma Rsum_map_zero {A : Type} (f : A -> R) (l : list A) :
  (forall x, In x l -> 0 <= f x) -> Rsum (map f l) = 0 ->
  forall x, In x l -> f x = 0.
Proof.
  intros Hf Hz x Hx. destruct (Hf x Hx) as [Hpos|E]; [|symmetry; exact E].
  pose proof (Rsum_map_pos_one f l x Hx Hpos Hf). lra.
Qed.

(** The M-step of one component does not decrease its weighted
    log-density. *)
Lemma updated_improves theta k c :
  proper theta -> regular theta ->
  nth_error (components theta) k = Some c ->
  let w := fun x => responsibility pdf theta x c in
  let c' := updated pdf regularize frozen samples theta k c in
  Rsum (map (fun x => w x * ln (pdf (mean c) (covar c) x)) samples)
  <= Rsum (map (fun x => w x * ln (pdf (mean c') (covar c') x)) samples).
Proof.
  intros Hp Hr Hk w c'.
  pose proof Hp as (_ & _ & Hlen & _ & _).
  pose proof (nth_error_In _ _ Hk) as Hc.
  assert (Hw : forall x, In x samples -> 0 <= w x)
    by (intros x Hx; apply proper_responsibility_nonneg; assumption).
  assert (HW : 0 <= Rsum (map w samples))
    by (apply Rsum_map_nonneg; exact Hw).
  destruct HW as [HW|HW].
  - destruct (updated_moments pdf regularize frozen samples theta k c Hk)
      as [Hm Hv].
    fold w c' in Hm, Hv. rewrite (Hlen c Hc) in Hm, Hv.
    pose proof (covar_valid theta k c Hp Hr Hk) as Hval.
    pose proof (Hlen c Hc) as HD.
    assert (Hl' : length (mean c') = D).
    { unfold c'. rewrite updated_mean_length; [exact HD|exact Hk|].
      rewrite HD. exact samples_shaped. }
    assert (Hmean :
      Rsum (map (fun x => w x * ln (pdf (mean c) (covar c) x)) samples)
      <= Rsum (map (fun x => w x * ln (pdf (mean c') (covar c) x)) samples)).
    { rewrite Hm. destruct (is_frozen k (frozen_mean frozen));
        [apply Rle_refl|].
      apply mean_step; assumption. }
    apply Rle_trans with (1 := Hmean).
    rewrite Hv. destruct (is_frozen k (frozen_covar frozen)) eqn:Ef;
      [apply Rle_refl|].
    apply covar_step; try assumption. apply (Hr k c Hk Ef).
  - pose proof (Rsum_map_zero w samples Hw (eq_sym HW)) as Hz.
    rewrite (Rsum_map_ext_in _ (fun _ => 0))
      by (intros x Hx; rewrite (Hz x Hx); ring).
    rewrite (Rsum_map_ext_in
               (fun x => w x * ln (pdf (mean c') (covar c') x))
               (fun _ => 0))
      by (intros x Hx; rewrite (Hz x Hx); ring).
    apply Rle_refl.
Qed.

(** One EM step from a proper state with admissible covariances, whose
    amplitudes sum to at most 1, does not decrease the log-likelihood. *)
Lemma step_monotone theta :
  proper theta -> regular theta -> total_amplitude theta <= 1 ->
  log_likelihood pdf theta samples <= log_likelihood pdf (step theta) samples.
Proof.
  intros Hp Hr Hsum.
  pose proof Hp as (_ & _ & _ & _ & Hden).
  pose proof (proper_denominator_nonzero theta Hp) as Hnz.
  unfold log_likelihood.
  rewrite (Rsum_map_ext_in
             (fun x => ln (denominator pdf theta x))
             (fun x => ln (mixture_density (term_amp theta)
                             (term_density pdf theta) (terms theta) x)))
    by (intros x _; rewrite denominator_terms; reflexivity).
  rewrite (Rsum_map_ext_in
             (fun x => ln (denominator pdf (step theta) x))
             (fun x => ln (mixture_density
                             (mean_resp (term_amp theta)
                                (term_density pdf theta) (terms theta)
                                samples)
                             (term_density_updated pdf regularize frozen
                                samples theta)
                             (terms theta) x)))
    by (intros x _; rewrite denominator_em_step by assumption; reflexivity).
  apply gem_increase.
  - exact samples_nonempty.
  - intros t Ht. apply term_amp_nonneg; assumption.
  - intros t x _ Hx. apply term_density_nonneg; assumption.
  - intros t x _ Hx. apply term_density_updated_nonneg; assumption.
  - intros x Hx. rewrite <- denominator_terms. apply Hden, Hx.
  - intros t x Ht Hx. apply term_density_updated_pos; assumption.
  - rewrite <- total_amplitude_terms. exact Hsum.
  - intros t Ht. destruct t as [[k c]|]; [|apply Rle_refl].
    apply in_terms_some in Ht.
    rewrite (Rsum_map_ext_in _
               (fun x => responsibility pdf theta x c
                         * ln (pdf (mean c) (covar c) x))).
    2:{ intros x Hx. rewrite <- (responsibility_terms pdf theta x k c)
          by (apply Hnz, Hx). reflexivity. }
    rewrite (Rsum_map_ext_in
               (fun x => _ * ln (term_density_updated _ _ _ _ _ _ x))
               (fun x => responsibility pdf theta x c
                         * ln (pdf (mean (updated pdf regularize frozen
                                            samples theta k c))
                                   (covar (updated pdf regularize frozen
                                             samples theta k c)) x))).
    2:{ intros x Hx. rewrite <- (responsibility_terms pdf theta x k c)
          by (apply Hnz, Hx). reflexivity. }
    apply updated_improves; assumption.
Qed.

Lemma em_iter_proper (theta0 : Mixture) (n : nat) :
  proper theta0 ->
  proper (em_iter pdf regularize frozen samples n theta0).
Proof.
  intro Hp. induction n as [|n IH]; [exact Hp|].
  simpl. apply step_proper. exact IH.
Qed.


End Monotone.

End EM_Facts.

Module Gaussian_Facts.
Import EM EM_Facts.
Local Open Scope R_scope.

Lemma sqrt_2PI_pos : 0 < sqrt (2 * PI).
Proof. apply sqrt_lt_R0. pose proof PI_RGT_0. lra. Qed.

Lemma Rinv_nonneg (s : R) : 0 <= s -> 0 <= / s.
Proof.
  intros [H|<-].
  - apply Rlt_le, Rinv_0_lt_compat. exact H.
  - rewrite Rinv_0. lra.
Qed.

Lemma gauss_pos (z z0 s : R) : 0 < s -> 0 < gauss z z0 s.
Proof.
  intro Hs. unfold gauss.
  apply Rdiv_lt_0_compat; [|exact Hs].
  apply Rdiv_lt_0_compat; [apply exp_pos | apply sqrt_2PI_pos].
Qed.

Lemma gauss_pdf_nonneg (mu : vec) (sigma : mat) (x : vec) :
  0 <= gauss_pdf mu sigma x.
Proof.
  unfold gauss_pdf, gauss, Rdiv.
  apply Rmult_le_pos; [apply Rmult_le_pos|].
  - apply Rlt_le, exp_pos.
  - apply Rlt_le, Rinv_0_lt_compat, sqrt_2PI_pos.
  - apply Rinv_nonneg, sqrt_pos.
Qed.

Lemma gauss_pdf_pos (m v z : R) : 0 < v -> 0 < gauss_pdf [m] [[v]] [z].
Proof.
  intro Hv. unfold gauss_pdf. simpl. apply gauss_pos.
  apply sqrt_lt_R0. exact Hv.
Qed.

Lemma ln_gauss (z m s : R) :
  0 < s ->
  ln (gauss z m s) = - (z - m) ^ 2 / (2 * s ^ 2) - ln (sqrt (2 * PI)) - ln s.
Proof.
  intro Hs. unfold gauss.
  pose proof sqrt_2PI_pos as Hp.
  pose proof (exp_pos (- (z - m) ^ 2 / (2 * s ^ 2))) as He.
  rewrite (ln_div _ s) by (try exact Hs; apply Rdiv_lt_0_compat; assumption).
  rewrite (ln_div _ _ He Hp), ln_exp. reflexivity.
Qed.

Lemma ln_sqrt_half (v : R) : 0 < v -> ln v = 2 * ln (sqrt v).
Proof.
  intro Hv. pose proof (sqrt_lt_R0 v Hv) as Hs.
  rewrite <- (sqrt_sqrt v) at 1 by lra.
  rewrite ln_mult by assumption. ring.
Qed.

(** *** The M-step of a one-dimensional Gaussian *)

Section WeightedGaussian.
Variables (xs : list vec) (w : vec -> R).

Local Abbreviation scatter := (EM.scatter xs w).
Local Abbreviation weight_sum := (EM.weight_sum xs w).
Local Abbreviation weighted_sum := (EM.weighted_sum xs w).

Lemma scatter_expand (m : R) :
  scatter m =
  weight_sum * (m * m) - 2 * m * weighted_sum
  + Rsum (map (fun x => w x * (hd 0 x * hd 0 x)) xs).
Proof.
  unfold EM.scatter, EM.weight_sum, EM.weighted_sum.
  rewrite (Rsum_map_ext_in _
             (fun x => w x * (m * m) - (2 * m) * (w x * hd 0 x)
                       + w x * (hd 0 x * hd 0 x)))
    by (intros; ring).
  rewrite Rsum_map_plus, Rsum_map_minus, Rsum_map_scal_r, Rsum_map_scal_l.
  ring.
Qed.

(** The weighted mean minimises the scatter. *)
Lemma scatter_weighted_mean (m : R) :
  0 < weight_sum ->
  scatter m = scatter (weighted_sum / weight_sum)
              + weight_sum * ((weighted_sum / weight_sum - m)
                              * (weighted_sum / weight_sum - m)).
Proof.
  intro HW. rewrite !scatter_expand. field. lra.
Qed.

Lemma scatter_min (m : R) :
  0 < weight_sum -> scatter (weighted_sum / weight_sum) <= scatter m.
Proof.
  intro HW. rewrite (scatter_weighted_mean m HW).
  assert (0 <= weight_sum * ((weighted_sum / weight_sum - m)
                             * (weighted_sum / weight_sum - m))).
  { apply Rmult_le_pos; [lra|]. apply Rle_0_sqr. }
  lra.
Qed.

Lemma weighted_ln_gauss (m v : R) :
  0 < v ->
  Rsum (map (fun x => w x * ln (gauss (hd 0 x) m (sqrt v))) xs) =
  - scatter m / (2 * v) - weight_sum * ln (sqrt (2 * PI))
  - weight_sum * ln (sqrt v).
Proof.
  intro Hv. pose proof (sqrt_lt_R0 v Hv) as Hs.
  unfold EM.scatter, EM.weight_sum.
  rewrite (Rsum_map_ext_in _
             (fun x => (- (w x * ((m - hd 0 x) * (m - hd 0 x)))) / (2 * v)
                       - w x * ln (sqrt (2 * PI)) - w x * ln (sqrt v))).
  - rewrite !Rsum_map_minus, Rsum_map_div, !Rsum_map_scal_r.
    rewrite (Rsum_map_ext_in (fun x => - (w x * ((m - hd 0 x) * (m - hd 0 x))))
               (fun x => (-1) * (w x * ((m - hd 0 x) * (m - hd 0 x)))))
      by (intros; ring).
    rewrite Rsum_map_scal_l. field. lra.
  - intros x _. rewrite (ln_gauss _ _ _ Hs).
    rewrite pow2_sqrt by lra. field. lra.
Qed.

(** For a fixed variance, the weighted mean is at least as good as any
    other mean. *)
Lemma gauss_mean_improves (m v : R) :
  0 < v -> 0 < weight_sum ->
  Rsum (map (fun x => w x * ln (gauss (hd 0 x) m (sqrt v))) xs)
  <= Rsum (map (fun x => w x * ln (gauss (hd 0 x)
                                     (weighted_sum / weight_sum) (sqrt v)))
               xs).
Proof.
  intros Hv HW. rewrite !weighted_ln_gauss by assumption.
  pose proof (scatter_min m HW) as HA.
  assert (- scatter m / (2 * v)
          <= - scatter (weighted_sum / weight_sum) / (2 * v)).
  { unfold Rdiv. apply Rmult_le_compat_r; [|lra].
    apply Rlt_le, Rinv_0_lt_compat. lra. }
  lra.
Qed.

Lemma scatter_nonneg (m : R) :
  (forall x, In x xs -> 0 <= w x) -> 0 <= scatter m.
Proof.
  intro Hw. unfold EM.scatter. apply Rsum_map_nonneg. intros x Hx.
  apply Rmult_le_pos; [apply Hw, Hx|apply Rle_0_sqr].
Qed.

(** For a fixed mean, among the variances at or above the floor the
    floored weighted variance is at least as good as any other. *)
Lemma gauss_variance_improves (m v floor : R) :
  0 < floor -> floor <= v -> 0 < weight_sum ->
  (forall x, In x xs -> 0 <= w x) ->
  Rsum (map (fun x => w x * ln (gauss (hd 0 x) m (sqrt v))) xs)
  <= Rsum (map (fun x => w x * ln (gauss (hd 0 x) m
                                     (sqrt (Rmax (scatter m / weight_sum)
                                                 floor)))) xs).
Proof.
  intros Hf Hv HW Hw.
  assert (Hvp : 0 < v) by lra.
  set (s := scatter m / weight_sum).
  assert (Hs : 0 <= s).
  { unfold s. apply Rmult_le_pos; [apply scatter_nonneg; exact Hw|].
    apply Rlt_le, Rinv_0_lt_compat, HW. }
  assert (HA : scatter m = weight_sum * s) by (unfold s; field; lra).
  assert (Hv' : 0 < Rmax s floor).
  { apply Rlt_le_trans with floor; [exact Hf|apply Rmax_r]. }
  rewrite !weighted_ln_gauss by assumption.
  rewrite HA.
  assert (Hkey : s / Rmax s floor + ln (Rmax s floor) <= s / v + ln v).
  { destruct (Rle_lt_dec floor s) as [Hc|Hc].
    - rewrite Rmax_left by exact Hc.
      assert (Hsp : 0 < s) by lra.
      assert (Hr : 0 < s / v) by (apply Rdiv_lt_0_compat; assumption).
      pose proof (ln_le_minus_1 _ Hr) as Hln.
      rewrite (ln_div _ _ Hsp Hvp) in Hln.
      replace (s / s) with 1 by (field; lra). lra.
    - rewrite Rmax_right by lra.
      assert (Hr : 0 < floor / v) by (apply Rdiv_lt_0_compat; assumption).
      pose proof (ln_le_minus_1 _ Hr) as Hln.
      rewrite (ln_div _ _ Hf Hvp) in Hln.
      assert (Hg : 0 <= (v - floor) * (floor - s) / (v * floor)).
      { apply Rmult_le_pos.
        - apply Rmult_le_pos; lra.
        - apply Rlt_le, Rinv_0_lt_compat, Rmult_lt_0_compat; lra. }
      assert (E : s / v - s / floor + (1 - floor / v)
                  = (v - floor) * (floor - s) / (v * floor))
        by (field; lra).
      lra. }
  rewrite (ln_sqrt_half v Hvp), (ln_sqrt_half _ Hv') in Hkey.
  assert (E1 : - (weight_sum * s) / (2 * v)
               = - (weight_sum / 2) * (s / v)) by (field; lra).
  assert (E2 : - (weight_sum * s) / (2 * Rmax s floor)
               = - (weight_sum / 2) * (s / Rmax s floor)) by (field; lra).
  rewrite E1, E2.
  assert (Hm : weight_sum / 2 * (s / Rmax s floor
                                 + 2 * ln (sqrt (Rmax s floor)))
               <= weight_sum / 2 * (s / v + 2 * ln (sqrt v)))
    by (apply Rmult_le_compat_l; lra).
  lra.
Qed.

End WeightedGaussian.

(** *** One-dimensional mixtures *)

Lemma hd_coord (v : vec) : hd 0 v = coord 0 v.
Proof. destruct v; reflexivity. Qed.

Lemma hd_entry (m : mat) : hd 0 (hd [] m) = entry 0 0 m.
Proof. destruct m as [|[|a r] m]; reflexivity. Qed.

Lemma weighted_mean_ext (D : nat) (w w' : vec -> R) (xs : list vec) :
  (forall x, In x xs -> w x = w' x) ->
  weighted_mean D w xs = weighted_mean D w' xs.
Proof.
  intro H. unfold weighted_mean.
  rewrite (map_ext_in w w' xs H). reflexivity.
Qed.

Lemma weighted_covariance_ext (D : nat) (w w' : vec -> R) (xs : list vec)
  (mu : vec) :
  (forall x, In x xs -> w x = w' x) ->
  weighted_covariance D w xs mu = weighted_covariance D w' xs mu.
Proof.
  intro H. unfold weighted_covariance.
  rewrite (map_ext_in w w' xs H). reflexivity.
Qed.

(** The weighted moments of scalar samples. *)
Lemma weighted_mean_scalar (w : vec -> R) (xs : list vec) :
  scalar_samples xs ->
  weighted_mean 1 w xs = [weighted_sum xs w / weight_sum xs w].
Proof.
  intro Hs.
  destruct (weighted_mean_coord 1 w xs 0 Hs ltac:(lia)) as [Hl Hc].
  destruct (weighted_mean 1 w xs) as [|z [|]]; try discriminate.
  unfold coord in Hc. simpl in Hc. rewrite Hc.
  unfold weighted_sum, weight_sum. do 3 f_equal.
  apply map_ext. intro x. rewrite hd_coord. reflexivity.
Qed.

Lemma weighted_covariance_scalar (w : vec -> R) (xs : list vec) (m : R) :
  scalar_samples xs ->
  hd 0 (hd [] (weighted_covariance 1 w xs [m]))
  = scatter xs w m / weight_sum xs w.
Proof.
  intro Hs. rewrite hd_entry.
  rewrite (weighted_covariance_entry 1 w xs [m] 0 0 Hs eq_refl)
    by lia.
  unfold scatter, weight_sum. f_equal. apply Rsum_map_ext_in.
  intros x _. rewrite hd_coord. unfold coord. simpl. ring.
Qed.

(** *** The one-dimensional Gaussian with a floored variance meets what
    the monotonicity argument asks of the primitives *)

Section Floored.
Variable floor : R.
Hypothesis floor_pos : 0 < floor.

Lemma gauss_pdf_valid_pos (mu : vec) (sigma : mat) (x : vec) :
  positive_variance sigma -> 0 < gauss_pdf mu sigma x.
Proof.
  intros [v [-> Hv]]. unfold gauss_pdf. simpl.
  apply gauss_pos, sqrt_lt_R0. lra.
Qed.

Lemma floored_positive_variance (sigma : mat) :
  floored floor sigma -> positive_variance sigma.
Proof. intros [v [-> Hv]]. exists v. split; [reflexivity|lra]. Qed.

Lemma floor_variance_floored (sigma : mat) :
  floored floor (floor_variance floor sigma).
Proof. eexists. split; [reflexivity|apply Rmax_r]. Qed.

Lemma gauss_mean_step (xs : list vec) (w : vec -> R) (mu : vec)
  (sigma : mat) :
  Forall (fun x => length x = 1%nat) xs -> length mu = 1%nat ->
  positive_variance sigma ->
  (forall x, In x xs -> 0 <= w x) -> 0 < Rsum (map w xs) ->
  Rsum (map (fun x => w x * ln (gauss_pdf mu sigma x)) xs)
  <= Rsum (map (fun x => w x * ln (gauss_pdf (weighted_mean 1 w xs)
                                     sigma x)) xs).
Proof.
  intros Hs Hmu [v [-> Hv]] Hw HW.
  rewrite (weighted_mean_scalar w xs Hs).
  unfold gauss_pdf. cbn [hd].
  apply gauss_mean_improves; [lra|exact HW].
Qed.

Lemma gauss_covar_step (xs : list vec) (w : vec -> R) (mu : vec)
  (sigma : mat) :
  Forall (fun x => length x = 1%nat) xs -> length mu = 1%nat ->
  floored floor sigma ->
  (forall x, In x xs -> 0 <= w x) -> 0 < Rsum (map w xs) ->
  Rsum (map (fun x => w x * ln (gauss_pdf mu sigma x)) xs)
  <= Rsum (map (fun x =>
                  w x * ln (gauss_pdf mu
                              (floor_variance floor
                                 (weighted_covariance 1 w xs mu)) x)) xs).
Proof.
  intros Hs Hmu [v [-> Hv]] Hw HW.
  destruct mu as [|m [|]]; try discriminate.
  unfold floor_variance. rewrite (weighted_covariance_scalar w xs m Hs).
  unfold gauss_pdf. cbn [hd].
  apply gauss_variance_improves; assumption.
Qed.

End Floored.

(** *** A fit of a single component without background *)

Lemma single_component_responsibility (a m v : R) (x : vec) :
  0 < a -> 0 < v ->
  let c := {| amp := a; mean := [m]; covar := [[v]] |} in
  responsibility gauss_pdf {| components := [c]; background := None |} x c
  = 1.
Proof.
  intros Ha Hv c.
  assert (Hp : 0 < gauss_pdf [m] [[v]] x).
  { unfold gauss_pdf. simpl. apply gauss_pos, sqrt_lt_R0, Hv. }
  assert (Hd : denominator gauss_pdf
                 {| components := [c]; background := None |} x
               = a * gauss_pdf [m] [[v]] x).
  { unfold denominator, background_term, weighted_density. simpl. ring. }
  assert (Hnz : denominator gauss_pdf
                  {| components := [c]; background := None |} x <> 0).
  { rewrite Hd. apply Rgt_not_eq, Rmult_lt_0_compat; assumption. }
  rewrite (responsibility_share gauss_pdf _ x c Hnz), Hd.
  unfold weighted_density. simpl. field.
  split; apply Rgt_not_eq; assumption.
Qed.

(** One EM iteration on scalar samples: the amplitude becomes 1, the mean
    the mean of the samples and the variance their floored variance
    about the new mean, unless frozen. *)
Lemma single_component_step (floor : R) (frozen : Frozen)
  (samples : list vec) (a m v : R) :
  scalar_samples samples -> samples <> [] -> 0 < a -> 0 < v ->
  let one := fun _ : vec => 1 in
  let m' := if is_frozen 0 (frozen_mean frozen) then m
            else weighted_sum samples one / weight_sum samples one in
  let v' := if is_frozen 0 (frozen_covar frozen) then v
            else Rmax (scatter samples one m' / weight_sum samples one)
                      floor in
  components
    (em_step gauss_pdf (floor_variance floor) frozen samples
       {| components := [ {| amp := a; mean := [m]; covar := [[v]] |} ];
          background := None |})
  = [ {| amp := 1; mean := [m']; covar := [[v']] |} ].
Proof.
  intros Hs Hne Ha Hv one m' v'.
  set (c := {| amp := a; mean := [m]; covar := [[v]] |}).
  set (theta := {| components := [c]; background := None |}).
  assert (Hk : nth_error (components theta) 0 = Some c) by reflexivity.
  assert (Hw : forall x, In x samples ->
             responsibility gauss_pdf theta x c = one x)
    by (intros x _; apply single_component_responsibility; assumption).
  change (components (em_step gauss_pdf (floor_variance floor) frozen
                        samples theta))
    with [updated gauss_pdf (floor_variance floor) frozen samples theta O c].
  f_equal.
  pose proof (updated_amp gauss_pdf (floor_variance floor) frozen samples
                theta O c Hk) as Hamp.
  destruct (updated_moments gauss_pdf (floor_variance floor) frozen samples
              theta O c Hk) as [Hm Hcv].
  cbv zeta in Hm, Hcv.
  change (length (mean c)) with 1%nat in Hm, Hcv.
  destruct (updated gauss_pdf (floor_variance floor) frozen samples theta
              O c) as [a' mu' sigma'].
  cbn [amp mean covar] in Hamp, Hm, Hcv.
  assert (Ea : a' = 1).
  { rewrite Hamp. rewrite (Rsum_map_ext_in _ one) by exact Hw.
    unfold one. rewrite Rsum_map_const.
    pose proof (INR_length_pos samples Hne). field. lra. }
  assert (Em : mu' = [m']).
  { rewrite Hm. unfold m'.
    destruct (is_frozen 0 (frozen_mean frozen)); [reflexivity|].
    rewrite (weighted_mean_ext 1 _ one samples Hw).
    apply weighted_mean_scalar. exact Hs. }
  assert (Ev : sigma' = [[v']]).
  { rewrite Hcv. unfold v'.
    destruct (is_frozen 0 (frozen_covar frozen)); [reflexivity|].
    rewrite Em.
    rewrite (weighted_covariance_ext 1 _ one samples [m'] Hw).
    unfold floor_variance.
    rewrite (weighted_covariance_scalar one samples m' Hs). reflexivity. }
  rewrite Ea, Em, Ev. reflexivity.
Qed.

(** *** The fits of the notebook *)

(** The background of the notebook, uniform over [[0, 1]]. *)
Lemma uniform_density_unit_interval (z : R) :
  0 <= uniform_density [0] [1] [z] /\
  (0 <= z <= 1 -> uniform_density [0] [1] [z] = 1).
Proof.
  unfold uniform_density, box_volume. simpl.
  destruct (Rle_dec 0 z), (Rle_dec z 1); simpl; split; intros; try lra;
    try (field_simplify; lra).
Qed.

Lemma notebook_samples_scalar : scalar_samples [[3 / 10]; [4 / 10]].
Proof. repeat constructor. Qed.

Lemma last_fit_init_nonneg :
  background_nonneg last_fit_init [[3 / 10]; [4 / 10]] /\
  amplitudes_nonneg last_fit_init.
Proof.
  split.
  - intros b Hb x Hx. injection Hb as <-. simpl.
    destruct Hx as [<-|[<-|[]]]; apply uniform_density_unit_interval.
  - split.
    + repeat constructor; simpl; lra.
    + intros b Hb. injection Hb as <-. simpl. lra.
Qed.

(** A fit to a single point, on which a Gaussian collapses: the amplitude
    is still 1 after the second M-step. *)
Lemma one_point_fit_amplitude (floor : R) :
  total_amplitude
    (em_iter gauss_pdf (floor_variance floor) nothing_frozen [[0]] 2
       {| components := [ {| amp := 1; mean := [0]; covar := [[1]] |} ];
          background := None |}) = 1.
Proof.
  change (em_iter gauss_pdf (floor_variance floor) nothing_frozen [[0]] 2 ?t)
    with (em_step gauss_pdf (floor_variance floor) nothing_frozen [[0]]
            (em_iter gauss_pdf (floor_variance floor) nothing_frozen [[0]] 1
               t)).
  apply em_step_total_amplitude; [discriminate|].
  apply em_iter_has_term. left. discriminate.
Qed.



(** A fit with the mean of its only component frozen: on the samples 0 and
    2 the mean stays at 0, away from the sample mean 1, while the
    covariance, which is not frozen, moves from 1 to 2. *)
Lemma frozen_mean_fit_first_iteration :
  components (em_iter gauss_pdf (floor_variance (1 / 1000)) frozen_mean_only
                [[0]; [2]] 1 frozen_mean_init)
  = [ {| amp := 1; mean := [0]; covar := [[2]] |} ].
Proof.
  change (em_iter gauss_pdf (floor_variance (1 / 1000)) frozen_mean_only
            [[0]; [2]] 1 frozen_mean_init)
    with (em_step gauss_pdf (floor_variance (1 / 1000)) frozen_mean_only
            [[0]; [2]] frozen_mean_init).
  unfold frozen_mean_init.
  rewrite (single_component_step (1 / 1000) frozen_mean_only [[0]; [2]]
             1 0 1) by (try discriminate; try lra; repeat constructor).
  cbn [is_frozen frozen_mean_only frozen_mean frozen_covar existsb Nat.eqb
       orb].
  unfold scatter, weight_sum. cbn [map Rsum fold_right hd].
  replace (1 * ((0 - 0) * (0 - 0)) + (1 * ((0 - 2) * (0 - 2)) + 0)) with 4
    by ring.
  replace (4 / (1 + (1 + 0))) with 2 by field.
  rewrite Rmax_left by lra. reflexivity.
Qed.

Lemma frozen_parameters_unchanged_witness :
  let samples := [[0]; [2]] in
  let c0 := {| amp := 1; mean := [0]; covar := [[1]] |} in
  nth_error (components frozen_mean_init) 0 = Some c0 /\
  is_frozen 0 (frozen_mean frozen_mean_only) = true /\
  exists c,
    nth_error (components (em_iter gauss_pdf (floor_variance (1 / 1000))
                             frozen_mean_only samples 1 frozen_mean_init)) 0
    = Some c /\
    mean c = mean c0 /\ covar c = [[2]] /\ covar c <> covar c0.
Proof.
  intros samples c0.
  assert (H : nth_error (components frozen_mean_init) 0 = Some c0)
    by reflexivity.
  assert (Hf : is_frozen 0 (frozen_mean frozen_mean_only) = true)
    by reflexivity.
  split; [exact H|]. split; [exact Hf|].
  destruct (frozen_parameters_unchanged gauss_pdf
              (floor_variance (1 / 1000)) frozen_mean_only samples
              frozen_mean_init 1 O c0 H) as (c & Hk & Hm & _).
  exists c. split; [exact Hk|]. split; [exact (Hm Hf)|].
  unfold samples in Hk. rewrite frozen_mean_fit_first_iteration in Hk.
  injection Hk as <-. simpl. split; [reflexivity|].
  intro E. injection E as E. lra.
Defined.

(** *** Monotonicity, for the one-dimensional Gaussian *)

Lemma background_fit_init_proper :
  proper gauss_pdf 1 positive_variance nothing_frozen
    [[3 / 10]; [4 / 10]] background_fit_init /\
  regular (floored (1 / 1000)) nothing_frozen background_fit_init /\
  total_amplitude background_fit_init <= 1.
Proof.
  split; [|split].
  - split; [|split; [|split; [|split]]].
    + split.
      * repeat constructor; simpl; lra.
      * intros b Hb. injection Hb as <-. simpl. lra.
    + intros b Hb x Hx. injection Hb as <-. simpl.
      destruct Hx as [<-|[<-|[]]]; apply uniform_density_unit_interval.
    + intros c [<-|[]]. reflexivity.
    + intros k c _ Hf. destruct k; discriminate.
    + intros x Hx. unfold denominator, background_term, weighted_density.
      simpl.
      pose proof (gauss_pdf_pos (35 / 100) (1 / 10) (hd 0 x) ltac:(lra))
        as Hg.
      assert (E : gauss_pdf [35 / 100] [[1 / 10]] x
                  = gauss_pdf [35 / 100] [[1 / 10]] [hd 0 x])
        by reflexivity.
      assert (Hu : 0 <= uniform_density [0] [1] x)
        by (destruct Hx as [<-|[<-|[]]]; apply uniform_density_unit_interval).
      rewrite E. lra.
  - intros k c Hk _. destruct k as [|[|k]]; try discriminate.
    injection Hk as <-. exists (1 / 10). split; [reflexivity|simpl; lra].
  - unfold total_amplitude. simpl. lra.
Qed.


(** The regularization can lower the likelihood of the first step: a fit
    that starts at the mean 1 and the variance 1 of the samples 0 and 2,
    with amplitude 1, keeps its mean, and a floor of 4 raises its variance
    to 4, away from the best one. *)
Lemma floor_first_iteration :
  components (em_iter gauss_pdf (floor_variance 4) nothing_frozen
                [[0]; [2]] 1 sample_moments_init)
  = [ {| amp := 1; mean := [1]; covar := [[4]] |} ].
Proof.
  change (em_iter gauss_pdf (floor_variance 4) nothing_frozen
            [[0]; [2]] 1 sample_moments_init)
    with (em_step gauss_pdf (floor_variance 4) nothing_frozen
            [[0]; [2]] sample_moments_init).
  unfold sample_moments_init.
  rewrite (single_component_step 4 nothing_frozen [[0]; [2]] 1 1 1)
    by (try discriminate; try lra; repeat constructor).
  cbn [is_frozen nothing_frozen frozen_mean frozen_covar existsb].
  unfold scatter, weighted_sum, weight_sum. cbn [map Rsum fold_right hd].
  replace ((1 * 0 + (1 * 2 + 0)) / (1 + (1 + 0))) with 1 by field.
  replace (1 * ((1 - 0) * (1 - 0)) + (1 * ((1 - 2) * (1 - 2)) + 0)) with 2
    by ring.
  replace (2 / (1 + (1 + 0))) with 1 by field.
  rewrite Rmax_right by lra. reflexivity.
Qed.

Lemma ln_2_lower : 3 / 8 < ln 2.
Proof.
  pose proof (exp_ineq1_le (- (3 / 8))) as H.
  rewrite exp_Ropp in H.
  pose proof (exp_pos (3 / 8)) as Hp.
  assert (He : exp (3 / 8) <= 8 / 5).
  { apply (Rmult_le_reg_r (/ exp (3 / 8)));
      [apply Rinv_0_lt_compat; exact Hp|].
    rewrite Rinv_r by lra. lra. }
  rewrite <- (ln_exp (3 / 8)). apply ln_increasing; lra.
Qed.

Lemma ln_single_gaussian (v z : R) :
  0 < v ->
  ln (1 * gauss_pdf [1] [[v]] [z] + 0 + 0)
  = - (z - 1) ^ 2 / (2 * v) - ln (sqrt (2 * PI)) - ln v / 2.
Proof.
  intro Hv. pose proof (sqrt_lt_R0 v Hv) as Hs.
  replace (1 * gauss_pdf [1] [[v]] [z] + 0 + 0)
    with (gauss z 1 (sqrt v)) by (unfold gauss_pdf; simpl; ring).
  rewrite (ln_gauss _ _ _ Hs), pow2_sqrt by lra.
  rewrite (ln_sqrt_half v Hv). field. lra.
Qed.


End Gaussian_Facts.

Module KDE_More_Facts.
Import KDE KDE_Counts KDE_Facts.
Local Open Scope Q_scope.

Lemma Qltb_compat (a a' b b' : Q) :
  a == a' -> b == b' -> Qltb a b = Qltb a' b'.
Proof.
  intros Ea Eb.
  destruct (Qltb a b) eqn:E1, (Qltb a' b') eqn:E2; try reflexivity.
  - apply Qltb_iff in E1. rewrite Ea, Eb in E1. apply Qltb_iff in E1.
    congruence.
  - apply Qltb_iff in E2. rewrite <- Ea, <- Eb in E2. apply Qltb_iff in E2.
    congruence.
Qed.

(** The histogram, one query point at a time. *)
Lemma point_centered_histogram_map (x : list Q) (w : Q) (data : list Q) :
  point_centered_histogram x w data =
  map (fun xi => of_nat (window_count xi w data)
                 / (of_nat (length data) * w)) x.
Proof.
  unfold point_centered_histogram, scaled_offsets, window_count.
  rewrite map_map. apply map_ext. intro xi. rewrite map_map. reflexivity.
Qed.

Lemma window_count_le (xi w : Q) (data : list Q) :
  (window_count xi w data <= length data)%nat.
Proof.
  unfold window_count. etransitivity; [apply count_true_le|].
  rewrite length_map. reflexivity.
Qed.

Lemma count_true_app (m1 m2 : list bool) :
  count_true (m1 ++ m2) = (count_true m1 + count_true m2)%nat.
Proof. induction m1 as [|b m1 IH]; simpl; [reflexivity|]. rewrite IH. lia. Qed.

Lemma window_count_app (xi w : Q) (d1 d2 : list Q) :
  window_count xi w (d1 ++ d2)
  = (window_count xi w d1 + window_count xi w d2)%nat.
Proof. unfold window_count. rewrite map_app. apply count_true_app. Qed.

Lemma window_count_ext (xi w xi' w' : Q) (f : Q -> Q) (data : list Q) :
  (forall d, In d data ->
     Qabs ((d - xi) / (w / 2)) == Qabs ((f d - xi') / (w' / 2))) ->
  window_count xi' w' (map f data) = window_count xi w data.
Proof.
  intro H. unfold window_count. rewrite map_map. f_equal.
  apply map_ext_in. intros d Hd.
  apply Qltb_compat; [|reflexivity]. symmetry. apply H. exact Hd.
Qed.

Lemma of_nat_plus (n m : nat) : of_nat (n + m) == of_nat n + of_nat m.
Proof.
  unfold of_nat. rewrite Nat2Z.inj_add, inject_Z_plus. reflexivity.
Qed.

Lemma Qabs_nonzero (c : Q) : ~ c == 0 -> 0 < Qabs c.
Proof.
  intro H. destruct (Qlt_le_dec 0 (Qabs c)) as [H1|H1]; [exact H1|].
  exfalso. apply H. apply Qabs_Qle_condition in H1. lra.
Qed.

(** X1.  Changing the unit and the origin of the axis, [v -> c v + t],
    for the query points, the data and the bin width, divides every value
    by [|c|]: the histogram transforms as a density. *)
Theorem point_centered_histogram_affine (x : list Q) (w : Q)
  (data : list Q) (c t : Q) :
  ~ c == 0 -> ~ w == 0 -> data <> [] ->
  Forall2 Qeq
    (point_centered_histogram (map (fun v => c * v + t) x) (Qabs c * w)
       (map (fun v => c * v + t) data))
    (map (fun v => v / Qabs c) (point_centered_histogram x w data)).
Proof.
  intros Hc Hw Hd. pose proof (Qabs_nonzero c Hc) as Hac.
  assert (Ha : ~ Qabs c == 0) by lra.
  assert (Hn : ~ of_nat (length data) == 0).
  { assert (0 < of_nat (length data)); [|lra].
    apply of_nat_pos. destruct data; [congruence|simpl; lia]. }
  rewrite !point_centered_histogram_map, !map_map, length_map.
  induction x as [|xi x IH]; simpl; constructor; [|exact IH].
  rewrite (window_count_ext xi w).
  - field. repeat split; assumption.
  - intros d _.
    setoid_replace ((c * d + t - (c * xi + t)) / (Qabs c * w / 2))
      with ((c / Qabs c) * ((d - xi) / (w / 2)))
      by (field; split; assumption).
    rewrite Qabs_Qmult.
    setoid_replace (Qabs (c / Qabs c)) with 1; [ring|].
    unfold Qdiv. rewrite Qabs_Qmult, Qabs_Qinv.
    rewrite (Qabs_pos (Qabs c)) by lra. field. exact Ha.
Qed.

Lemma of_nat_nonzero (data : list Q) :
  data <> [] -> ~ of_nat (length data) == 0.
Proof.
  intro Hd. assert (0 < of_nat (length data)); [|lra].
  apply of_nat_pos. destruct data; [congruence|simpl; lia].
Qed.

Lemma point_centered_histogram_nth (x : list Q) (w : Q) (data : list Q)
  (i : nat) (xi : Q) :
  nth_error x i = Some xi ->
  nth_error (point_centered_histogram x w data) i =
  Some (of_nat (window_count xi w data) / (of_nat (length data) * w)).
Proof.
  intro H. rewrite point_centered_histogram_map, nth_error_map, H.
  reflexivity.
Qed.

(** X2.  In exact arithmetic, the histogram of pooled data is the average
    of the histograms of the two parts, weighted by their sizes. *)
Theorem point_centered_histogram_pooled (x : list Q) (w : Q)
  (d1 d2 : list Q) (i : nat) (xi : Q) :
  ~ w == 0 -> d1 <> [] -> d2 <> [] ->
  nth_error x i = Some xi ->
  exists v v1 v2,
    nth_error (point_centered_histogram x w (d1 ++ d2)) i = Some v /\
    nth_error (point_centered_histogram x w d1) i = Some v1 /\
    nth_error (point_centered_histogram x w d2) i = Some v2 /\
    v == (of_nat (length d1) * v1 + of_nat (length d2) * v2)
         / of_nat (length d1 + length d2).
Proof.
  intros Hw H1 H2 Hi.
  pose proof (of_nat_nonzero d1 H1) as Hn1.
  pose proof (of_nat_nonzero d2 H2) as Hn2.
  assert (Hn : ~ of_nat (length d1) + of_nat (length d2) == 0).
  { pose proof (of_nat_nonneg (length d1)).
    pose proof (of_nat_nonneg (length d2)). lra. }
  do 3 eexists.
  rewrite !(point_centered_histogram_nth _ _ _ i xi Hi).
  repeat split.
  rewrite window_count_app, length_app, !of_nat_plus.
  field. repeat split; assumption.
Qed.

Lemma count_true_zero (mask : list bool) :
  count_true mask = O <-> Forall (fun b => b = false) mask.
Proof.
  induction mask as [|b m IH]; simpl.
  - split; auto.
  - destruct b; simpl; split; intro H.
    + discriminate.
    + inversion H; discriminate.
    + constructor; [reflexivity|]. apply IH. exact H.
    + inversion H; subst. apply IH. assumption.
Qed.

(** X3.  In exact arithmetic, for a positive bin width and non-empty data,
    the value at a query point is zero exactly when no data point lies
    strictly within half a bin width of it. *)
Theorem point_centered_histogram_zero (x : list Q) (w : Q) (data : list Q)
  (i : nat) (xi : Q) :
  0 < w -> data <> [] ->
  nth_error x i = Some xi ->
  exists v, nth_error (point_centered_histogram x w data) i = Some v /\
    (v == 0 <-> Forall (fun dj => w / 2 <= Qabs (dj - xi)) data).
Proof.
  intros Hw Hd Hi. eexists.
  split; [apply point_centered_histogram_nth; exact Hi|].
  pose proof (of_nat_nonzero data Hd) as Hn.
  assert (Hnw : ~ of_nat (length data) * w == 0).
  { intro E. apply Qmult_integral in E. destruct E; [auto|lra]. }
  assert (E0 : of_nat (window_count xi w data) / (of_nat (length data) * w)
               == 0 <-> window_count xi w data = O).
  { split; intro H.
    - apply of_nat_inj.
      setoid_replace (of_nat (window_count xi w data))
        with (of_nat (window_count xi w data) / (of_nat (length data) * w)
              * (of_nat (length data) * w)) by (field; split; lra).
      rewrite H. reflexivity.
    - rewrite H. change (of_nat 0) with 0. unfold Qdiv. ring. }
  rewrite E0. unfold window_count. rewrite count_true_zero, Forall_map.
  rewrite !Forall_forall.
  split; intros H dj Hdj; specialize (H dj Hdj); cbv beta in *.
  - apply Qnot_lt_le. intro Hlt.
    apply (within_half_bin w xi dj Hw) in Hlt. congruence.
  - destruct (Qltb (Qabs ((dj - xi) / (w / 2))) 1) eqn:E; [|reflexivity].
    apply (within_half_bin w xi dj Hw) in E. lra.
Qed.

Lemma count_true_perm (m m' : list bool) :
  Permutation m m' -> count_true m = count_true m'.
Proof.
  intro H. induction H; simpl; try lia.
Qed.

(** X4.  The order of the data does not matter. *)
Theorem point_centered_histogram_permutation (x : list Q) (w : Q)
  (data data' : list Q) :
  Permutation data data' ->
  point_centered_histogram x w data = point_centered_histogram x w data'.
Proof.
  intro H. rewrite !point_centered_histogram_map.
  apply map_ext. intro xi.
  rewrite (Permutation_length H). do 2 f_equal.
  unfold window_count. apply count_true_perm, Permutation_map, H.
Qed.

Lemma count_true_mono (m m' : list bool) :
  Forall2 (fun b b' => b = true -> b' = true) m m' ->
  (count_true m <= count_true m')%nat.
Proof.
  intro H. induction H as [|b b' m m' Hb _ IH]; simpl; [lia|].
  destruct b, b'; simpl; try lia.
Qed.

Lemma window_count_mono (xi w w' : Q) (data : list Q) :
  0 < w -> w <= w' ->
  (window_count xi w data <= window_count xi w' data)%nat.
Proof.
  intros Hw Hww. assert (Hw' : 0 < w') by lra.
  unfold window_count. apply count_true_mono.
  induction data as [|d data IH]; cbn [map]; constructor; [|exact IH].
  intro H. apply (within_half_bin w xi d Hw) in H.
  apply (within_half_bin w' xi d Hw').
  apply Qlt_le_trans with (w / 2); [exact H|].
  unfold Qdiv. apply Qmult_le_compat_r; [exact Hww|discriminate].
Qed.

(** X5.  In exact arithmetic, density times bin width, the share of the
    data inside the window, cannot shrink when the window grows, and is at
    most 1. *)
Theorem point_centered_histogram_wider (x : list Q) (w w' : Q)
  (data : list Q) (i : nat) (xi : Q) :
  0 < w -> w <= w' -> data <> [] ->
  nth_error x i = Some xi ->
  exists v v',
    nth_error (point_centered_histogram x w data) i = Some v /\
    nth_error (point_centered_histogram x w' data) i = Some v' /\
    v * w <= v' * w' /\ v' * w' <= 1.
Proof.
  intros Hw Hww Hd Hi.
  assert (Hw' : 0 < w') by lra.
  pose proof (of_nat_nonzero data Hd) as Hn.
  assert (Hnp : 0 < of_nat (length data)).
  { apply of_nat_pos. destruct data; [congruence|simpl; lia]. }
  do 2 eexists.
  rewrite !(point_centered_histogram_nth _ _ _ i xi Hi).
  repeat split.
  - setoid_replace (of_nat (window_count xi w data)
                    / (of_nat (length data) * w) * w)
      with (of_nat (window_count xi w data) / of_nat (length data))
      by (field; split; lra).
    setoid_replace (of_nat (window_count xi w' data)
                    / (of_nat (length data) * w') * w')
      with (of_nat (window_count xi w' data) / of_nat (length data))
      by (field; split; lra).
    unfold Qdiv. apply Qmult_le_compat_r.
    + apply of_nat_le, window_count_mono; assumption.
    + apply Qlt_le_weak, Qinv_lt_0_compat, Hnp.
  - setoid_replace (of_nat (window_count xi w' data)
                    / (of_nat (length data) * w') * w')
      with (of_nat (window_count xi w' data) / of_nat (length data))
      by (field; split; lra).
    apply Qle_shift_div_r; [exact Hnp|]. rewrite Qmult_1_l.
    apply of_nat_le, window_count_le.
Qed.

(** X6.  A negative bin width is not refused: it gives the values of the
    positive width with the sign changed. *)
Theorem point_centered_histogram_negative_width (x : list Q) (w : Q)
  (data : list Q) :
  ~ w == 0 -> data <> [] ->
  Forall2 Qeq (point_centered_histogram x (- w) data)
              (map Qopp (point_centered_histogram x w data)).
Proof.
  intros Hw Hd. pose proof (of_nat_nonzero data Hd) as Hn.
  rewrite !point_centered_histogram_map, !map_map.
  induction x as [|xi x IH]; simpl; constructor; [|exact IH].
  rewrite <- (map_id data) at 1.
  rewrite (window_count_ext xi w xi (- w) (fun d => d)).
  - field. split; assumption.
  - intros d _.
    setoid_replace ((d - xi) / (- w / 2)) with (- ((d - xi) / (w / 2)))
      by (field; exact Hw).
    rewrite Qabs_opp. reflexivity.
Qed.


Lemma point_centered_histogram_affine_witness :
  let x := [0; 1] in
  let data := [1; 12 # 10] in
  ~ 2 == 0 /\ ~ 1 == 0 /\ data <> [] /\
  Forall2 Qeq
    (point_centered_histogram (map (fun v => 2 * v + 1) x) (Qabs 2 * 1)
       (map (fun v => 2 * v + 1) data))
    (map (fun v => v / Qabs 2) (point_centered_histogram x 1 data)).
Proof.
  intros x data.
  assert (Hc : ~ 2 == 0) by discriminate.
  assert (Hw : ~ 1 == 0) by discriminate.
  assert (Hd : data <> []) by discriminate.
  split; [exact Hc|]. split; [exact Hw|]. split; [exact Hd|].
  exact (point_centered_histogram_affine x 1 data 2 1 Hc Hw Hd).
Defined.

Lemma point_centered_histogram_pooled_witness :
  let x := [1; 2] in
  let d1 := [1; 12 # 10] in
  let d2 := [2] in
  ~ 1 == 0 /\ d1 <> [] /\ d2 <> [] /\ nth_error x 0 = Some 1 /\
  exists v v1 v2,
    nth_error (point_centered_histogram x 1 (d1 ++ d2)) 0 = Some v /\
    nth_error (point_centered_histogram x 1 d1) 0 = Some v1 /\
    nth_error (point_centered_histogram x 1 d2) 0 = Some v2 /\
    v == (of_nat (length d1) * v1 + of_nat (length d2) * v2)
         / of_nat (length d1 + length d2).
Proof.
  intros x d1 d2.
  assert (Hw : ~ 1 == 0) by discriminate.
  assert (H1 : d1 <> []) by discriminate.
  assert (H2 : d2 <> []) by discriminate.
  assert (Hi : nth_error x 0 = Some 1) by reflexivity.
  split; [exact Hw|]. split; [exact H1|]. split; [exact H2|].
  split; [exact Hi|].
  exact (point_centered_histogram_pooled x 1 d1 d2 0 1 Hw H1 H2 Hi).
Defined.

Lemma point_centered_histogram_zero_witness :
  let x := [1; 2] in
  let data := [1; 12 # 10] in
  0 < 1 /\ data <> [] /\ nth_error x 1 = Some 2 /\
  nth_error (point_centered_histogram x 1 data) 1 = Some (0 / ((2 # 1) * 1)) /\
  exists v, nth_error (point_centered_histogram x 1 data) 1 = Some v /\
    (v == 0 <-> Forall (fun dj => 1 / 2 <= Qabs (dj - 2)) data).
Proof.
  intros x data.
  assert (Hw : 0 < 1) by reflexivity.
  assert (Hd : data <> []) by discriminate.
  assert (Hi : nth_error x 1 = Some 2) by reflexivity.
  split; [exact Hw|]. split; [exact Hd|]. split; [exact Hi|].
  split; [reflexivity|].
  exact (point_centered_histogram_zero x 1 data 1 2 Hw Hd Hi).
Defined.

Lemma point_centered_histogram_permutation_witness :
  let x := [1; 2] in
  Permutation [1; 12 # 10; 2] [2; 1; 12 # 10] /\
  point_centered_histogram x 1 [1; 12 # 10; 2]
  = point_centered_histogram x 1 [2; 1; 12 # 10].
Proof.
  intro x.
  assert (Hp : Permutation [1; 12 # 10; 2] [2; 1; 12 # 10]).
  { apply Permutation_sym.
    apply (Permutation_cons_app [1; 12 # 10] [] 2 (Permutation_refl _)). }
  split; [exact Hp|].
  exact (point_centered_histogram_permutation x 1 _ _ Hp).
Defined.

Lemma point_centered_histogram_wider_witness :
  let x := [1; 2] in
  let data := [1; 12 # 10] in
  0 < 1 /\ 1 <= 3 /\ data <> [] /\ nth_error x 1 = Some 2 /\
  exists v v',
    nth_error (point_centered_histogram x 1 data) 1 = Some v /\
    nth_error (point_centered_histogram x 3 data) 1 = Some v' /\
    v * 1 <= v' * 3 /\ v' * 3 <= 1.
Proof.
  intros x data.
  assert (Hw : 0 < 1) by reflexivity.
  assert (Hww : 1 <= 3) by discriminate.
  assert (Hd : data <> []) by discriminate.
  assert (Hi : nth_error x 1 = Some 2) by reflexivity.
  split; [exact Hw|]. split; [exact Hww|]. split; [exact Hd|].
  split; [exact Hi|].
  exact (point_centered_histogram_wider x 1 3 data 1 2 Hw Hww Hd Hi).
Defined.

Lemma point_centered_histogram_negative_width_witness :
  let x := [1; 2] in
  let data := [1; 12 # 10] in
  ~ 1 == 0 /\ data <> [] /\
  point_centered_histogram x (- (1)) data
  = [(2 # 1) / ((2 # 1) * - (1)); 0 / ((2 # 1) * - (1))] /\
  Forall2 Qeq (point_centered_histogram x (- (1)) data)
              (map Qopp (point_centered_histogram x 1 data)).
Proof.
  intros x data.
  assert (Hw : ~ 1 == 0) by discriminate.
  assert (Hd : data <> []) by discriminate.
  split; [exact Hw|]. split; [exact Hd|]. split; [reflexivity|].
  exact (point_centered_histogram_negative_width x 1 data Hw Hd).
Defined.

End KDE_More_Facts.

Module CrossValidation_Facts.
Import Arrays CrossValidation.
Local Open Scope nat_scope.

Lemma take_in_bounds {A : Type} (x : list A) (ind : list nat) :
  (forall i, In i ind -> i < length x) ->
  exists t, take x ind = Some t /\ length t = length ind /\
    forall v, In v t <-> exists i, In i ind /\ nth_error x i = Some v.
Proof.
  induction ind as [|i ind IH]; intro H.
  - exists []. simpl. repeat split; auto.
    + intros [].
    + intros [i [[] _]].
  - destruct IH as [t [Ht [Hlen Hin]]];
      [intros j Hj; apply H; right; exact Hj|].
    assert (Hi : i < length x) by (apply H; left; reflexivity).
    destruct (nth_error x i) as [v|] eqn:E;
      [|apply nth_error_None in E; lia].
    exists (v :: t). simpl. rewrite E, Ht.
    split; [reflexivity|]. split; [lia|].
    intro u. split.
    + intros [<-|Hu].
      * exists i. split; [left; reflexivity|exact E].
      * apply Hin in Hu. destruct Hu as [j [Hj Hx]].
        exists j. split; [right; exact Hj|exact Hx].
    + intros [j [[<-|Hj] Hx]].
      * left. congruence.
      * right. apply Hin. exists j. split; assumption.
Qed.

Lemma take_out_of_bounds {A : Type} (x : list A) (ind : list nat) (i : nat) :
  In i ind -> length x <= i -> take x ind = None.
Proof.
  intros Hin Hi. induction ind as [|j ind IH]; [contradiction|].
  simpl. destruct Hin as [->|Hin].
  - apply nth_error_None in Hi. rewrite Hi. reflexivity.
  - rewrite (IH Hin). destruct (nth_error x j); reflexivity.
Qed.

(** The entries a boolean mask over the positions keeps. *)
Lemma select_positions {A : Type} (x : list A) (g : nat -> bool) (a : nat) :
  let kept := map fst (filter snd (combine x (map g (seq a (length x))))) in
  length kept = length (filter g (seq a (length x))) /\
  forall v, In v kept <->
    exists j, nth_error x j = Some v /\ g (a + j) = true.
Proof.
  revert a. induction x as [|u x IH]; intro a; simpl.
  - split; [reflexivity|]. intro v. split; [intros []|].
    intros [j [Hj _]]. destruct j; discriminate.
  - destruct (IH (S a)) as [Hlen Hin]. simpl in Hlen, Hin.
    destruct (g a) eqn:Ega; simpl.
    + split; [f_equal; exact Hlen|].
      intro v. split.
      * intros [<-|Hv].
        -- exists 0. rewrite Nat.add_0_r. split; [reflexivity|exact Ega].
        -- apply Hin in Hv. destruct Hv as [j [Hj Hg]].
           exists (S j). rewrite Nat.add_succ_r. split; assumption.
      * intros [[|j] [Hj Hg]].
        -- left. simpl in Hj. congruence.
        -- right. apply Hin. exists j. rewrite Nat.add_succ_r in Hg.
           split; assumption.
    + split; [exact Hlen|].
      intro v. split.
      * intro Hv. apply Hin in Hv. destruct Hv as [j [Hj Hg]].
        exists (S j). rewrite Nat.add_succ_r. split; assumption.
      * intros [[|j] [Hj Hg]].
        -- rewrite Nat.add_0_r in Hg. congruence.
        -- apply Hin. exists j. rewrite Nat.add_succ_r in Hg.
           split; assumption.
Qed.

Lemma held_out_iff (rand_i : list nat) (j : nat) :
  existsb (Nat.eqb j) rand_i = true <-> In j rand_i.
Proof.
  rewrite existsb_exists. split.
  - intros [i [Hi E]]. apply Nat.eqb_eq in E. subst. exact Hi.
  - intro H. exists j. split; [exact H|apply Nat.eqb_refl].
Qed.

Lemma leave_out_unfold (x : list Q) (rand_i : list nat) (t : list Q) :
  take x rand_i = Some t ->
  leave_out x rand_i =
  Some (t, map fst (filter snd
                      (combine x (map (fun j => negb (existsb (Nat.eqb j)
                                                        rand_i))
                                      (seq 0 (length x)))))).
Proof.
  intro Ht. unfold leave_out, select, logical_not, isin, arange.
  rewrite Ht, !length_map, length_seq, Nat.eqb_refl, map_map. reflexivity.
Qed.

(** The positions of [x] that are held out. *)
Lemma held_out_count (n : nat) (rand_i : list nat) :
  (forall i, In i rand_i -> i < n) ->
  length (filter (fun j => existsb (Nat.eqb j) rand_i) (seq 0 n))
  = length (nodup Nat.eq_dec rand_i).
Proof.
  intro H. apply Permutation_length, NoDup_Permutation.
  - apply NoDup_filter, seq_NoDup.
  - apply NoDup_nodup.
  - intro j. rewrite filter_In, nodup_In, in_seq, held_out_iff.
    split; [intros [_ Hj]; exact Hj|].
    intro Hj. split; [|exact Hj]. specialize (H j Hj). lia.
Qed.

Lemma filter_negb_length {A : Type} (f : A -> bool) (l : list A) :
  length (filter (fun a => negb (f a)) l) + length (filter f l) = length l.
Proof.
  induction l as [|a l IH]; simpl; [reflexivity|].
  destruct (f a); simpl; lia.
Qed.

(** X7.  When every drawn index is in bounds, the round succeeds; the test
    set has one entry per drawn index, repeated draws included, and the
    training set has one entry per position that was not drawn.  An index
    out of bounds fails the round. *)
Theorem leave_out_sizes (x : list Q) (rand_i : list nat) :
  ((forall i, In i rand_i -> i < length x) ->
   exists test_x train_x,
     leave_out x rand_i = Some (test_x, train_x) /\
     length test_x = length rand_i /\
     length train_x + length (nodup Nat.eq_dec rand_i) = length x /\
     length x - length rand_i <= length train_x) /\
  (forall i, In i rand_i -> length x <= i -> leave_out x rand_i = None).
Proof.
  split.
  - intro H. destruct (take_in_bounds x rand_i H) as [t [Ht [Hlen _]]].
    eexists t, _. split; [apply leave_out_unfold; exact Ht|].
    split; [exact Hlen|].
    destruct (select_positions x
                (fun j => negb (existsb (Nat.eqb j) rand_i)) 0)
      as [Hl _].
    cbv zeta in Hl. rewrite Hl.
    pose proof (filter_negb_length (fun j => existsb (Nat.eqb j) rand_i)
                  (seq 0 (length x))) as Hf.
    rewrite length_seq, (held_out_count _ _ H) in Hf.
    split; [exact Hf|].
    pose proof (NoDup_incl_length (NoDup_nodup Nat.eq_dec rand_i)
                  (l' := rand_i)) as Hn.
    assert (length (nodup Nat.eq_dec rand_i) <= length rand_i).
    { apply Hn. intros j Hj. apply nodup_In in Hj. exact Hj. }
    lia.
  - intros i Hi Hout. unfold leave_out.
    rewrite (take_out_of_bounds x rand_i i Hi Hout). reflexivity.
Qed.

(** X8.  When the data are pairwise distinct, no held-out point is in the
    training set, and every other point is. *)
Theorem leave_out_disjoint (x : list Q) (rand_i : list nat)
  (test_x train_x : list Q) :
  NoDup x ->
  leave_out x rand_i = Some (test_x, train_x) ->
  forall v, In v train_x <-> In v x /\ ~ In v test_x.
Proof.
  intros Hnd Hs v.
  assert (Hb : forall i, In i rand_i -> i < length x).
  { intros i Hi. destruct (Nat.lt_ge_cases i (length x)) as [|Hge];
      [assumption|].
    unfold leave_out in Hs. rewrite (take_out_of_bounds x rand_i i Hi Hge) in Hs.
    discriminate. }
  destruct (take_in_bounds x rand_i Hb) as [t [Ht [_ Htest]]].
  rewrite (leave_out_unfold x rand_i t Ht) in Hs. injection Hs as <- <-.
  destruct (select_positions x
              (fun j => negb (existsb (Nat.eqb j) rand_i)) 0) as [_ Hin].
  cbv zeta in Hin. rewrite Hin, Htest.
  split.
  - intros [j [Hj Hg]]. simpl in Hg. apply negb_true_iff in Hg.
    split; [apply (nth_error_In _ _ Hj)|].
    intros [i [Hi Hx]].
    assert (i = j).
    { apply (proj1 (NoDup_nth_error x) Hnd).
      - apply nth_error_Some. congruence.
      - congruence. }
    subst i. apply held_out_iff in Hi. congruence.
  - intros [Hv Hnot]. apply In_nth_error in Hv. destruct Hv as [j Hj].
    exists j. split; [exact Hj|]. simpl. apply negb_true_iff.
    destruct (existsb (Nat.eqb j) rand_i) eqn:E; [|reflexivity].
    exfalso. apply Hnot. exists j. split; [|exact Hj].
    apply held_out_iff. exact E.
Qed.


Lemma leave_out_sizes_witness :
  let x := [10; 20; 30; 40; 50]%Q in
  let rand_i := [1; 3; 1]%nat in
  (forall i, In i rand_i -> i < length x) /\
  leave_out x rand_i = Some ([20; 40; 20]%Q, [10; 30; 50]%Q) /\
  exists test_x train_x,
    leave_out x rand_i = Some (test_x, train_x) /\
    length test_x = length rand_i /\
    length train_x + length (nodup Nat.eq_dec rand_i) = length x /\
    length x - length rand_i <= length train_x.
Proof.
  intros x rand_i.
  assert (H : forall i, In i rand_i -> i < length x).
  { intros i [<-|[<-|[<-|[]]]]; simpl; lia. }
  split; [exact H|]. split; [reflexivity|].
  exact (proj1 (leave_out_sizes x rand_i) H).
Defined.

Lemma leave_out_disjoint_witness :
  let x := [10; 20; 30; 40; 50]%Q in
  let rand_i := [1; 3; 1]%nat in
  NoDup x /\
  leave_out x rand_i = Some ([20; 40; 20]%Q, [10; 30; 50]%Q) /\
  forall v, In v [10; 30; 50]%Q <-> In v x /\ ~ In v [20; 40; 20]%Q.
Proof.
  intros x rand_i.
  assert (Hnd : NoDup x).
  { repeat constructor; simpl; intuition discriminate. }
  assert (Hs : leave_out x rand_i = Some ([20; 40; 20]%Q, [10; 30; 50]%Q))
    by reflexivity.
  split; [exact Hnd|]. split; [exact Hs|].
  exact (leave_out_disjoint x rand_i _ _ Hnd Hs).
Defined.

End CrossValidation_Facts.

Module NaiveBayes_Facts.
Import Arrays NaiveBayes KDE KDE_Facts.
Import String.
Local Open Scope string_scope.
Local Open Scope Q_scope.

Lemma weights_eq (n_cluster n_field : nat) :
  weights n_cluster n_field =
  [("cluster", of_nat n_cluster / of_nat (n_cluster + n_field));
   ("field", of_nat n_field / of_nat (n_cluster + n_field))].
Proof. reflexivity. Qed.

Lemma qsum_map_div (f : Q -> Q) (c : Q) (l : list Q) :
  qsum (map (fun d => f d / c) l) == qsum (map f l) / c.
Proof.
  induction l as [|d l IH]; simpl.
  - unfold Qdiv. ring.
  - rewrite IH. unfold Qdiv. ring.
Qed.

Lemma qsum_map_pos (f : Q -> Q) (l : list Q) :
  l <> [] -> (forall d, 0 < f d) -> 0 < qsum (map f l).
Proof.
  intros Hl Hf. destruct l as [|d l]; [congruence|]. clear Hl. simpl.
  assert (0 <= qsum (map f l)).
  { induction l as [|e l IH]; simpl; [lra|]. specialize (Hf e). lra. }
  specialize (Hf d). lra.
Qed.

Lemma ratio_le_1 (pc pf : Q) : 0 < pf -> (pc / pf <= 1 <-> pc <= pf).
Proof.
  intro H. split; intro Hle.
  - assert (H1 : pc / pf * pf <= 1 * pf)
      by (apply Qmult_le_compat_r; lra).
    assert (E : pc == pc / pf * pf) by (field; lra).
    rewrite E. rewrite Qmult_1_l in H1. exact H1.
  - apply Qle_shift_div_r; [exact H|]. lra.
Qed.

(** The ratio of the two probabilities against 1, without the weights'
    common denominator and without the normalisation. *)
Lemma ratio_rule (nc nf t lc lf norm : Q) :
  0 < t -> 0 < norm -> 0 < nf -> 0 < lf ->
  (nc / t * lc / norm) / (nf / t * lf / norm) <= 1 <-> nc * lc <= nf * lf.
Proof.
  intros Ht Hn Hnf Hlf.
  assert (Hd : 0 < nf / t * lf / norm).
  { apply Qlt_shift_div_l; [exact Hn|]. rewrite Qmult_0_l.
    apply Qmult_lt_0_compat; [|exact Hlf].
    apply Qlt_shift_div_l; [exact Ht|]. lra. }
  rewrite (ratio_le_1 _ _ Hd).
  rewrite <- (Qmult_le_r _ _ (norm * t)) by (apply Qmult_lt_0_compat; lra).
  setoid_replace (nc / t * lc / norm * (norm * t)) with (nc * lc)
    by (field; lra).
  setoid_replace (nf / t * lf / norm * (norm * t)) with (nf * lf)
    by (field; lra).
  reflexivity.
Qed.

(** The label of one galaxy, from its ratio. *)
Lemma label_by_ratio_nth (n : nat) (ratio : list Q) (i : nat) (r : Q) :
  List.length ratio = n -> nth_error ratio i = Some r ->
  nth_error (label_by_ratio n ratio) i =
  Some (if Qle_bool r 1 then "field" else "cluster").
Proof.
  intros Hn Hr.
  assert (Hi : (i < n)%nat) by (rewrite <- Hn; apply nth_error_Some; congruence).
  unfold label_by_ratio, assign.
  rewrite !Selection_Facts.zip_with_nth_error, !nth_error_map, Hr.
  rewrite (nth_error_repeat _ Hi). cbn [option_map].
  unfold Qltb. destruct (Qle_bool r 1); reflexivity.
Qed.

Lemma label_by_ratio_length (n : nat) (ratio : list Q) :
  List.length ratio = n -> List.length (label_by_ratio n ratio) = n.
Proof.
  intro Hn. unfold label_by_ratio, assign.
  rewrite !Selection_Facts.zip_with_length; rewrite ?length_map, ?repeat_length;
    try reflexivity; try (symmetry; exact Hn).
  rewrite Selection_Facts.zip_with_length;
    rewrite ?length_map, ?repeat_length; congruence.
Qed.

Section Classified.
Variable density : string -> Q -> Q.
Hypothesis density_pos : forall label d, 0 < density label d.
Variables n_cluster n_field : nat.
Hypothesis cluster_pos : (0 < n_cluster)%nat.
Hypothesis field_pos : (0 < n_field)%nat.

Local Abbreviation total := (of_nat (n_cluster + n_field)).
Local Abbreviation w_cluster := (of_nat n_cluster / total).
Local Abbreviation w_field := (of_nat n_field / total).

Lemma total_pos : 0 < total.
Proof. apply of_nat_pos. lia. Qed.

Lemma w_cluster_pos : 0 < w_cluster.
Proof.
  apply Qlt_shift_div_l; [apply total_pos|]. rewrite Qmult_0_l.
  apply of_nat_pos, cluster_pos.
Qed.

Lemma w_field_pos : 0 < w_field.
Proof.
  apply Qlt_shift_div_l; [apply total_pos|]. rewrite Qmult_0_l.
  apply of_nat_pos, field_pos.
Qed.

(** The loop leaves the total of the last label, the field. *)
Lemma norm_loop_eq (unknown : list Q) :
  norm_loop density (weights n_cluster n_field) unknown =
  Some (qsum (map (Qmult w_field) (likelihoods density "field" unknown))).
Proof. reflexivity. Qed.

Lemma classify_eq (unknown : list Q) :
  let norm := qsum (map (Qmult w_field)
                        (likelihoods density "field" unknown)) in
  let prob_field := map (fun l => w_field * l / norm)
                        (likelihoods density "field" unknown) in
  let prob_cluster := map (fun l => w_cluster * l / norm)
                          (likelihoods density "cluster" unknown) in
  classify density n_cluster n_field unknown =
  Some (prob_field, prob_cluster,
        label_by_ratio (List.length unknown)
          (zip_with Qdiv prob_cluster prob_field)).
Proof. reflexivity. Qed.

Lemma norm_pos (unknown : list Q) :
  unknown <> [] ->
  0 < qsum (map (Qmult w_field) (likelihoods density "field" unknown)).
Proof.
  intro H. unfold likelihoods. rewrite map_map.
  apply (qsum_map_pos (fun d => w_field * density "field" d)); [exact H|].
  intro d. apply Qmult_lt_0_compat; [apply w_field_pos|apply density_pos].
Qed.

(** X9.  In exact arithmetic, where a positive density neither underflows
    nor turns a ratio into NaN, every unknown galaxy gets the label cluster
    or field, never the placeholder, and the label is cluster exactly when
    the number of cluster galaxies times the cluster density exceeds the
    number of field galaxies times the field density: the normalisation
    cancels. *)
Theorem classify_rule (unknown : list Q) :
  exists prob_field prob_cluster labels,
    classify density n_cluster n_field unknown
    = Some (prob_field, prob_cluster, labels) /\
    List.length labels = List.length unknown /\
    forall i d, nth_error unknown i = Some d ->
      nth_error labels i =
      Some (if Qltb (of_nat n_field * density "field" d)
                    (of_nat n_cluster * density "cluster" d)
            then "cluster" else "field").
Proof.
  do 3 eexists. split; [apply classify_eq|]. cbv zeta.
  set (norm := qsum (map (Qmult w_field)
                         (likelihoods density "field" unknown))).
  assert (Hlen : List.length
            (zip_with Qdiv
               (map (fun l => w_cluster * l / norm)
                    (likelihoods density "cluster" unknown))
               (map (fun l => w_field * l / norm)
                    (likelihoods density "field" unknown)))
          = List.length unknown).
  { rewrite Selection_Facts.zip_with_length;
      unfold likelihoods; rewrite !length_map; reflexivity. }
  split; [apply label_by_ratio_length; exact Hlen|].
  intros i d Hd.
  assert (Hne : unknown <> []) by (intro E; rewrite E in Hd; destruct i; discriminate).
  pose proof (norm_pos unknown Hne) as Hnorm. fold norm in Hnorm.
  pose proof total_pos as Ht. pose proof w_field_pos as Hwf.
  pose proof w_cluster_pos as Hwc.
  pose proof (density_pos "field" d) as Hf.
  pose proof (density_pos "cluster" d) as Hc.
  rewrite (label_by_ratio_nth _ _ i
             ((w_cluster * density "cluster" d / norm)
              / (w_field * density "field" d / norm)) Hlen).
  2:{ rewrite Selection_Facts.zip_with_nth_error. unfold likelihoods.
      rewrite !nth_error_map, Hd. reflexivity. }
  f_equal.
  assert (Hiff : (w_cluster * density "cluster" d / norm)
                 / (w_field * density "field" d / norm) <= 1
                 <-> of_nat n_cluster * density "cluster" d
                     <= of_nat n_field * density "field" d).
  { apply ratio_rule; try assumption. apply of_nat_pos, field_pos. }
  destruct (Qle_bool _ 1) eqn:E.
  - apply Qle_bool_iff in E. apply Hiff in E.
    destruct (Qltb _ _) eqn:E'; [|reflexivity].
    apply Qltb_iff in E'. lra.
  - destruct (Qltb _ _) eqn:E'; [reflexivity|].
    assert (Hn : of_nat n_cluster * density "cluster" d
                 <= of_nat n_field * density "field" d).
    { apply Qnot_lt_le. intro Hlt. apply Qltb_iff in Hlt. congruence. }
    apply Hiff in Hn. apply Qle_bool_iff in Hn. congruence.
Qed.


End Classified.


Lemma example_density_pos (label : string) (d : Q) :
  0 < example_density label d.
Proof.
  unfold example_density.
  destruct (Qle_bool d 1), (String.eqb label "cluster"); reflexivity.
Qed.

Lemma classify_rule_witness :
  let unknown := [1 # 2; 2; 1] in
  (forall label d, 0 < example_density label d) /\
  (0 < 2)%nat /\ (0 < 4)%nat /\
  option_map snd (classify example_density 2 4 unknown)
  = Some ["cluster"; "field"; "cluster"] /\
  exists prob_field prob_cluster labels,
    classify example_density 2 4 unknown
    = Some (prob_field, prob_cluster, labels) /\
    List.length labels = List.length unknown /\
    forall i d, nth_error unknown i = Some d ->
      nth_error labels i =
      Some (if Qltb (of_nat 4 * example_density "field" d)
                    (of_nat 2 * example_density "cluster" d)
            then "cluster" else "field").
Proof.
  intro unknown.
  assert (Hc : (0 < 2)%nat) by lia.
  assert (Hf : (0 < 4)%nat) by lia.
  split; [exact example_density_pos|]. split; [exact Hc|].
  split; [exact Hf|]. split; [reflexivity|].
  exact (classify_rule example_density example_density_pos 2 4 Hc Hf unknown).
Defined.


End NaiveBayes_Facts.

Module Survey_Facts.
Import Arrays Selection Selection_Facts Survey KDE KDE_Facts.
Local Open Scope Q_scope.

Lemma ramp_range_mask_length (coords : ndarray2) (s : RandomState) :
  let c := map (fun r => hd 0 r) (rows coords) in
  length (zip_with andb
           (zip_with KDE.Qltb (map (fun z => z - z_cl) c)
              (map (fun r => r * (1 - z_cl)) (fst (rand (len coords) s))))
           (zip_with andb (map (fun z => Qle_bool 0 z) c)
              (map (fun z => Qle_bool z 1) c))) = len coords.
Proof.
  intro c. unfold c, len.
  assert (H1 : forall f : Q -> bool,
            length (map f (map (fun r => hd 0 r) (rows coords)))
            = length (rows coords))
    by (intro f; rewrite !length_map; reflexivity).
  assert (H2 : length (zip_with KDE.Qltb
              (map (fun z => z - z_cl) (map (fun r => hd 0 r) (rows coords)))
              (map (fun r => r * (1 - z_cl))
                 (fst (rand (length (rows coords)) s))))
            = length (rows coords)).
  { rewrite zip_with_length; rewrite !length_map; [reflexivity|].
    rewrite rand_length. reflexivity. }
  assert (H3 : length (zip_with andb
              (map (fun z => Qle_bool 0 z)
                 (map (fun r => hd 0 r) (rows coords)))
              (map (fun z => Qle_bool z 1)
                 (map (fun r => hd 0 r) (rows coords))))
            = length (rows coords)).
  { rewrite zip_with_length; rewrite !length_map; reflexivity. }
  rewrite zip_with_length; [exact H2|]. rewrite H2, H3. reflexivity.
Qed.

(** The mask entry of one row. *)
Lemma ramp_range_nth (coords : ndarray2) (s : RandomState) (i : nat)
  (row : list Q) (z : Q) :
  (0 < ncols coords)%nat ->
  nth_error (rows coords) i = Some row -> nth_error row 0 = Some z ->
  exists sel, ramp_range coords s = (Some sel, snd (rand (len coords) s)) /\
    length sel = len coords /\
    nth_error sel i =
    Some (Qltb (z - z_cl) (draws s (pos s + i)%nat * (1 - z_cl))
          && (Qle_bool 0 z && Qle_bool z 1)).
Proof.
  intros Hc Hrow Hz. rewrite (ramp_range_unfold coords s Hc).
  eexists. split; [reflexivity|]. split.
  - apply ramp_range_mask_length.
  - assert (Hi : (i < len coords)%nat).
    { apply nth_error_Some. unfold len. congruence. }
    assert (Hhd : hd 0 row = z) by (destruct row; simpl in *; congruence).
    unfold rand. cbn [fst].
    rewrite !zip_with_nth_error, !nth_error_map, Hrow.
    rewrite (nth_error_nth' (seq 0 (len coords)) O)
      by (rewrite length_seq; exact Hi).
    rewrite seq_nth by exact Hi. cbn [option_map]. rewrite Hhd.
    reflexivity.
Qed.

Lemma one_minus_z_cl : 0 < 1 - z_cl.
Proof. reflexivity. Qed.

(** X11.  In exact arithmetic, with draws in [[0, 1)], [ramp_range] keeps
    every row in front of the cluster, [0 <= z < z_cl], and drops every row
    with [1 <= z]; a row in the range [[0, 1]] is kept exactly when its
    draw exceeds the ramp [(z - z_cl) / (1 - z_cl)], which rises linearly
    from 0 at the cluster to 1 at [z = 1]. *)
Theorem ramp_range_regimes (coords : ndarray2) (s : RandomState) (i : nat)
  (row : list Q) (z : Q) :
  (0 < ncols coords)%nat ->
  nth_error (rows coords) i = Some row -> nth_error row 0 = Some z ->
  0 <= draws s (pos s + i)%nat < 1 ->
  exists sel, fst (ramp_range coords s) = Some sel /\
    (0 <= z -> z < z_cl -> nth_error sel i = Some true) /\
    (1 <= z -> nth_error sel i = Some false) /\
    (0 <= z <= 1 ->
     (nth_error sel i = Some true
      <-> (z - z_cl) / (1 - z_cl) < draws s (pos s + i)%nat)).
Proof.
  intros Hc Hrow Hz [Hu0 Hu1].
  destruct (ramp_range_nth coords s i row z Hc Hrow Hz)
    as [sel [E [_ Hi]]].
  exists sel. rewrite E. split; [reflexivity|].
  set (u := draws s (pos s + i)%nat) in *.
  pose proof one_minus_z_cl as H1.
  assert (Hramp : Qltb (z - z_cl) (u * (1 - z_cl)) = true
                  <-> (z - z_cl) / (1 - z_cl) < u).
  { rewrite Qltb_iff. split; intro H.
    - apply Qlt_shift_div_r; assumption.
    - idtac.
      assert (E1 : z - z_cl == (z - z_cl) / (1 - z_cl) * (1 - z_cl))
        by (field; lra).
      rewrite E1. apply Qmult_lt_compat_r; assumption. }
  assert (Hprod : 0 <= u * (1 - z_cl)) by (apply Qmult_le_0_compat; lra).
  assert (Hprod1 : u * (1 - z_cl) < 1 * (1 - z_cl))
    by (apply Qmult_lt_compat_r; assumption).
  rewrite Hi. split; [|split].
  - intros H0 Hcl. f_equal. apply andb_true_iff. split.
    + apply Qltb_iff. lra.
    + apply andb_true_iff. split; apply Qle_bool_iff; [exact H0|].
      unfold z_cl in Hcl. lra.
  - intro Hz1. f_equal. apply andb_false_iff. left.
    destruct (Qltb (z - z_cl) (u * (1 - z_cl))) eqn:E'; [|reflexivity].
    apply Qltb_iff in E'. lra.
  - intros [Hz0 Hz1]. split.
    + intro H. injection H as H. apply andb_true_iff in H.
      apply Hramp, H.
    + intro H. f_equal. apply andb_true_iff. split; [apply Hramp, H|].
      apply andb_true_iff. split; apply Qle_bool_iff; assumption.
Qed.

(** The entries a mask keeps. *)
Lemma select_same_length {A : Type} (x : list A) (mask : list bool) :
  length x = length mask ->
  select x mask = Some (map fst (filter snd (combine x mask))).
Proof. intro H. unfold select. rewrite H, Nat.eqb_refl. reflexivity. Qed.

Lemma select_other_length {A : Type} (x : list A) (mask : list bool) :
  length x <> length mask -> select x mask = None.
Proof.
  intro H. unfold select. apply Nat.eqb_neq in H. rewrite H. reflexivity.
Qed.

Lemma kept_length {A : Type} (x : list A) (mask : list bool) :
  length x = length mask ->
  length (map fst (filter snd (combine x mask))) = count_true mask.
Proof.
  revert mask. induction x as [|a x IH]; intros [|b mask] H; simpl in *;
    try reflexivity; try discriminate.
  destruct b; simpl; rewrite IH by lia; reflexivity.
Qed.

(** Two arrays indexed with one mask stay aligned. *)
Lemma kept_paired {A B : Type} (x : list A) (y : list B) (mask : list bool)
  (k : nat) (u : A) :
  length x = length mask -> length y = length mask ->
  nth_error (map fst (filter snd (combine x mask))) k = Some u ->
  exists i, nth_error x i = Some u /\ nth_error mask i = Some true /\
    nth_error (map fst (filter snd (combine y mask))) k = nth_error y i.
Proof.
  revert y mask k.
  induction x as [|a x IH]; intros [|c y] [|b mask] k Hx Hy Hk;
    simpl in *; try discriminate; try (destruct k; discriminate).
  destruct b; simpl in *.
  - destruct k as [|k]; simpl in *.
    + exists O. simpl. repeat split; congruence.
    + destruct (IH y mask k) as [i [H1 [H2 H3]]]; try lia; [exact Hk|].
      exists (S i). simpl. repeat split; assumption.
  - destruct (IH y mask k) as [i [H1 [H2 H3]]]; try lia; [exact Hk|].
    exists (S i). simpl. repeat split; assumption.
Qed.

(** X12.  Cutting the sample and its covariances with one selection mask
    succeeds when there is one covariance per row; both results have the
    number of accepted rows, every selected row is a row of the input with
    its first coordinate in [[0, 1]], and it keeps its own covariance.
    Covariances of another number fail the cut. *)
Theorem observe_aligned (noisy : ndarray2) (covar : list (list (list Q)))
  (s : RandomState) :
  (0 < ncols noisy)%nat ->
  (length covar = len noisy ->
   exists data_s covar_s,
     fst (observe noisy covar s) = Some (data_s, covar_s) /\
     ncols data_s = ncols noisy /\
     length (rows data_s) = length covar_s /\
     (length covar_s <= len noisy)%nat /\
     forall k row, nth_error (rows data_s) k = Some row ->
       exists i, nth_error (rows noisy) i = Some row /\
         nth_error covar_s k = nth_error covar i /\
         forall z, nth_error row 0 = Some z -> 0 <= z <= 1) /\
  (length covar <> len noisy -> fst (observe noisy covar s) = None).
Proof.
  intro Hc.
  pose proof (ramp_range_unfold noisy s Hc) as E. cbv zeta in E.
  set (sel := zip_with andb _ _) in E.
  assert (Hsel : length sel = len noisy).
  { apply ramp_range_mask_length. }
  unfold observe, bind, ret. rewrite E. cbn [fst].
  rewrite (select_same_length (rows noisy) sel) by (symmetry; exact Hsel).
  split.
  - intro Hlen.
    rewrite (select_same_length covar sel) by congruence.
    do 2 eexists. split; [reflexivity|]. cbn [ncols rows].
    split; [reflexivity|].
    assert (Hr : length (rows noisy) = length sel) by (symmetry; exact Hsel).
    assert (Hv : length covar = length sel) by congruence.
    rewrite (kept_length (rows noisy) sel Hr), (kept_length covar sel Hv).
    split; [reflexivity|].
    split; [rewrite <- Hsel; apply count_true_le|].
    intros k row Hk.
    destruct (kept_paired (rows noisy) covar sel k row Hr Hv Hk)
      as [i [Hi [Ht Hp]]].
    exists i. split; [exact Hi|]. split; [exact Hp|].
    intros z Hz.
    destruct (ramp_range_nth noisy s i row z Hc Hi Hz) as [sel' [E' [_ Hn]]].
    rewrite E in E'. injection E' as <-.
    rewrite Ht in Hn. injection Hn as Hn. symmetry in Hn.
    apply andb_true_iff in Hn. destruct Hn as [_ Hn].
    apply andb_true_iff in Hn. destruct Hn as [H0 H1].
    split; apply Qle_bool_iff; assumption.
  - intro Hlen.
    rewrite (select_other_length covar sel) by congruence. reflexivity.
Qed.



Lemma ramp_range_regimes_witness :
  let coords := {| ncols := 1; rows := [[1 # 10]; [1 # 2]; [12 # 10]] |} in
  let s := {| draws := fun _ => 1 # 2; pos := 0 |} in
  (0 < ncols coords)%nat /\
  nth_error (rows coords) 1 = Some [1 # 2] /\
  nth_error [1 # 2] 0 = Some (1 # 2) /\
  0 <= draws s (pos s + 1)%nat < 1 /\
  fst (ramp_range coords s) = Some [true; true; false] /\
  exists sel, fst (ramp_range coords s) = Some sel /\
    (0 <= 1 # 2 -> 1 # 2 < z_cl -> nth_error sel 1 = Some true) /\
    (1 <= 1 # 2 -> nth_error sel 1 = Some false) /\
    (0 <= 1 # 2 <= 1 ->
     (nth_error sel 1 = Some true
      <-> ((1 # 2) - z_cl) / (1 - z_cl) < draws s (pos s + 1)%nat)).
Proof.
  intros coords s.
  assert (Hc : (0 < ncols coords)%nat) by (simpl; lia).
  assert (Hrow : nth_error (rows coords) 1 = Some [1 # 2]) by reflexivity.
  assert (Hz : nth_error [1 # 2] 0 = Some (1 # 2)) by reflexivity.
  assert (Hu : 0 <= draws s (pos s + 1)%nat < 1)
    by (split; [discriminate|reflexivity]).
  split; [exact Hc|]. split; [exact Hrow|]. split; [exact Hz|].
  split; [exact Hu|]. split; [reflexivity|].
  exact (ramp_range_regimes coords s 1 [1 # 2] (1 # 2) Hc Hrow Hz Hu).
Defined.

Lemma observe_aligned_witness :
  let noisy := {| ncols := 1; rows := [[1 # 10]; [12 # 10]; [1 # 2]] |} in
  let covar := [[[1]]; [[2]]; [[3]]] in
  let s := {| draws := fun _ => 1 # 2; pos := 0 |} in
  (0 < ncols noisy)%nat /\ length covar = len noisy /\
  fst (observe noisy covar s)
  = Some ({| ncols := 1; rows := [[1 # 10]; [1 # 2]] |}, [[[1]]; [[3]]]) /\
  exists data_s covar_s,
    fst (observe noisy covar s) = Some (data_s, covar_s) /\
    ncols data_s = ncols noisy /\
    length (rows data_s) = length covar_s /\
    (length covar_s <= len noisy)%nat /\
    forall k row, nth_error (rows data_s) k = Some row ->
      exists i, nth_error (rows noisy) i = Some row /\
        nth_error covar_s k = nth_error covar i /\
        forall z, nth_error row 0 = Some z -> 0 <= z <= 1.
Proof.
  intros noisy covar s.
  assert (Hc : (0 < ncols noisy)%nat) by (simpl; lia).
  assert (Hlen : length covar = len noisy) by reflexivity.
  split; [exact Hc|]. split; [exact Hlen|]. split; [reflexivity|].
  exact (proj1 (observe_aligned noisy covar s Hc) Hlen).
Defined.


End Survey_Facts.

Module Gauss_Shape_Facts.
Import EM Gaussian_Facts.
Local Open Scope R_scope.

Lemma gauss_factor (z z0 s : R) :
  gauss z z0 s = exp (- (z - z0) ^ 2 / (2 * s ^ 2)) * (/ sqrt (2 * PI) * / s).
Proof. unfold gauss, Rdiv. ring. Qed.

Lemma exp_le_iff (a b : R) : exp a <= exp b <-> a <= b.
Proof.
  split; intro H.
  - destruct (Rle_or_lt a b) as [Hab|Hab]; [exact Hab|].
    apply exp_increasing in Hab. lra.
  - destruct H as [H|H]; [left; apply exp_increasing, H|subst; right; reflexivity].
Qed.

Lemma sqr_le_abs_iff (x y : R) : x ^ 2 <= y ^ 2 <-> Rabs x <= Rabs y.
Proof.
  rewrite <- !Rsqr_pow2. split.
  - apply Rsqr_le_abs_0.
  - apply Rsqr_le_abs_1.
Qed.

(** X14.  For a positive width the Gaussian is unimodal and symmetric about
    its centre: its value at the centre is [1 / sqrt (2 pi) / s], and of two
    arguments the one closer to the centre has the larger value, with equal
    values exactly at equal distances. *)
Theorem gauss_unimodal (z z' z0 s : R) :
  0 < s ->
  gauss z0 z0 s = 1 / sqrt (2 * PI) / s /\
  (gauss z' z0 s <= gauss z z0 s <-> Rabs (z - z0) <= Rabs (z' - z0)).
Proof.
  intro Hs. split.
  - unfold gauss. replace (- (z0 - z0) ^ 2 / (2 * s ^ 2)) with 0.
    + rewrite exp_0. reflexivity.
    + unfold Rdiv. ring.
  - rewrite !gauss_factor.
    assert (Hc : 0 < / sqrt (2 * PI) * / s).
    { apply Rmult_lt_0_compat; apply Rinv_0_lt_compat;
        [apply sqrt_2PI_pos|exact Hs]. }
    assert (Hd : 0 < / (2 * s ^ 2)).
    { apply Rinv_0_lt_compat. nra. }
    rewrite <- sqr_le_abs_iff.
    split; intro H.
    + apply Rmult_le_reg_r in H; [|exact Hc].
      apply (proj1 (exp_le_iff _ _)) in H. unfold Rdiv in H.
      rewrite <- !Ropp_mult_distr_l in H. apply Ropp_le_cancel in H.
      apply Rmult_le_reg_r in H; assumption.
    + apply Rmult_le_compat_r; [lra|].
      apply exp_le_iff. unfold Rdiv.
      rewrite <- !Ropp_mult_distr_l. apply Ropp_le_contravar.
      apply Rmult_le_compat_r; [lra|exact H].
Qed.

(** X15.  The width enters the exponent squared and the prefactor linearly:
    a negative width gives the negative of the density of its absolute
    value. *)
Theorem gauss_negative_width (z z0 s : R) :
  s <> 0 -> gauss z z0 (- s) = - gauss z z0 s.
Proof.
  intro Hs. unfold gauss.
  replace ((- s) ^ 2) with (s ^ 2) by ring.
  pose proof sqrt_2PI_pos as Hp.
  field. split; lra.
Qed.

(** X16.  Over the reals, a change of variable: scaling the argument, the
    centre and the width by [a] and shifting argument and centre by [b]
    divides the density by [a]. *)
Theorem gauss_rescale (a b z z0 s : R) :
  a <> 0 -> s <> 0 ->
  gauss (a * z + b) (a * z0 + b) (a * s) = gauss z z0 s / a.
Proof.
  intros Ha Hs. unfold gauss.
  replace (- (a * z + b - (a * z0 + b)) ^ 2 / (2 * (a * s) ^ 2))
    with (- (z - z0) ^ 2 / (2 * s ^ 2)) by (field; split; assumption).
  pose proof sqrt_2PI_pos as Hp.
  field. repeat split; lra.
Qed.


Lemma gauss_unimodal_witness :
  0 < 1 / 200 /\
  gauss (35 / 100) (35 / 100) (1 / 200) = 1 / sqrt (2 * PI) / (1 / 200) /\
  (gauss (3 / 10) (35 / 100) (1 / 200) <= gauss (36 / 100) (35 / 100) (1 / 200)
   <-> Rabs (36 / 100 - 35 / 100) <= Rabs (3 / 10 - 35 / 100)).
Proof.
  assert (Hs : 0 < 1 / 200) by lra.
  split; [exact Hs|].
  exact (gauss_unimodal (36 / 100) (3 / 10) (35 / 100) (1 / 200) Hs).
Defined.

Lemma gauss_negative_width_witness :
  1 / 200 <> 0 /\
  gauss (3 / 10) (35 / 100) (- (1 / 200))
  = - gauss (3 / 10) (35 / 100) (1 / 200).
Proof.
  assert (Hs : 1 / 200 <> 0) by lra.
  split; [exact Hs|].
  exact (gauss_negative_width (3 / 10) (35 / 100) (1 / 200) Hs).
Defined.

Lemma gauss_rescale_witness :
  2 <> 0 /\ 1 / 200 <> 0 /\
  gauss (2 * (3 / 10) + 1) (2 * (35 / 100) + 1) (2 * (1 / 200))
  = gauss (3 / 10) (35 / 100) (1 / 200) / 2.
Proof.
  assert (Ha : 2 <> 0) by lra.
  assert (Hs : 1 / 200 <> 0) by lra.
  split; [exact Ha|]. split; [exact Hs|].
  exact (gauss_rescale 2 1 (3 / 10) (35 / 100) (1 / 200) Ha Hs).
Defined.

End Gauss_Shape_Facts.
